(** * rxact: state streams (src/stateStream.js)

    A shallow embedding of [createSource], [createRelay], [createStateStream]
    and [stateObserver], together with the parts of JavaScript and of RxJS 5
    that these functions exercise: typeof, truthiness, property keys and the
    enumeration order of own properties, [Subject], [BehaviorSubject],
    [first], [mergeMap] and [combineLatest].

    A source stream is a state machine.  Its transitions are the calls a
    program can make ([createEvent], a dispatcher, the subscriptions) and the
    emissions of the sequences that handlers returned, in any interleaving,
    which covers handlers that answer at once and handlers that answer later.
    The functions a program supplies (handlers, updaters, observers) are
    given by their results; they do not call back into the stream while they
    run, and subscribers only record what they are sent. *)

From Stdlib Require Import Ascii String.
From stdpp Require Import gmap strings list pretty.

(** ** JavaScript values *)

Module JS.

(** Numbers are restricted to integers (no NaN, no fractions), and [VNum n]
    stands for a JavaScript number when [n] is a safe integer, of magnitude
    below [2^53]; a function or an [Rx.Observable] instance is known by its
    identity; a plain object by its own enumerable string-keyed properties,
    in enumeration order. *)
#[warnings="-register-all"]
Inductive value :=
  | VUndefined
  | VNull
  | VBool (b : bool)
  | VNum (n : Z)
  | VStr (s : string)
  | VFun (f : nat)
  | VObs (o : nat)
  | VObj (props : list (string * value)).

Abbreviation props := (list (string * value)).

(** [throw new Error(message)], and the [TypeError] the engine itself raises. *)
Inductive error :=
  | Error (message : string)
  | TypeError (message : string).

Inductive outcome (A : Type) :=
  | Returned (a : A)
  | Thrown (e : error).
Arguments Returned {A} a.
Arguments Thrown {A} e.

#[global] Instance outcome_ret : MRet outcome := @Returned.
#[global] Instance outcome_bind : MBind outcome := λ A B f m,
  match m with Returned a => f a | Thrown e => Thrown e end.
#[global] Instance outcome_fmap : FMap outcome := λ A B f m,
  match m with Returned a => Returned (f a) | Thrown e => Thrown e end.

Definition typeof (v : value) : string :=
  match v with
  | VUndefined => "undefined"
  | VNull => "object"
  | VBool _ => "boolean"
  | VNum _ => "number"
  | VStr _ => "string"
  | VFun _ => "function"
  | VObs _ | VObj _ => "object"
  end.

(** ToBoolean. *)
Definition truthy (v : value) : bool :=
  match v with
  | VUndefined | VNull => false
  | VBool b => b
  | VNum n => negb (n =? 0)%Z
  | VStr s => negb (String.eqb s EmptyString)
  | VFun _ | VObs _ | VObj _ => true
  end.

(** [v === undefined] *)
Definition is_undefined (v : value) : bool :=
  match v with VUndefined => true | _ => false end.

(** [s === v] for a string [s]: strict equality never converts. *)
Definition string_strict_equal (s : string) (v : value) : bool :=
  match v with VStr t => String.eqb s t | _ => false end.

(** [String.prototype.toUpperCase] on the ASCII letters; other bytes are kept. *)
Definition upper (c : ascii) : ascii :=
  let n := nat_of_ascii c in
  if (97 <=? n)%nat && (n <=? 122)%nat then ascii_of_nat (n - 32) else c.

Fixpoint toUpperCase (s : string) : string :=
  match s with
  | EmptyString => EmptyString
  | String c s' => String (upper c) (toUpperCase s')
  end.

(** *** Property keys

    An array index is the canonical decimal spelling of an integer below
    [2^32 - 1]: digits only and no leading zero. *)
Definition digit (c : ascii) : option N :=
  let n := N_of_ascii c in
  if (48 <=? n)%N && (n <=? 57)%N then Some (n - 48)%N else None.

Fixpoint digits (s : string) (acc : N) : option N :=
  match s with
  | EmptyString => Some acc
  | String c s' =>
      match digit c with
      | Some d => digits s' (10 * acc + d)%N
      | None => None
      end
  end.

Definition array_index (s : string) : option N :=
  match s with
  | EmptyString => None
  | String c s' =>
      if Ascii.eqb c "0" && negb (String.eqb s' EmptyString) then None
      else match digits s 0 with
           | Some n => if (n <? 2 ^ 32 - 1)%N then Some n else None
           | None => None
           end
  end.

Definition proto : string := "__proto__".

Definition obj_keys (o : props) : list string := o.*1.

(** [o[k]] for an own property; the prototype chain is not followed. *)
Fixpoint obj_get (k : string) (o : props) : value :=
  match o with
  | [] => VUndefined
  | (k', v) :: o' => if decide (k' = k) then v else obj_get k o'
  end.

Fixpoint obj_update (k : string) (v : value) (o : props) : props :=
  match o with
  | [] => []
  | (k', v') :: o' =>
      if decide (k' = k) then (k, v) :: o' else (k', v') :: obj_update k v o'
  end.

(** A new array-index key goes among the array-index keys, which come first
    and in ascending numeric order (OrdinaryOwnPropertyKeys). *)
Fixpoint obj_insert_index (n : N) (k : string) (v : value) (o : props) : props :=
  match o with
  | [] => [(k, v)]
  | (k', v') :: o' =>
      match array_index k' with
      | Some n' =>
          if (n' <? n)%N then (k', v') :: obj_insert_index n k v o'
          else (k, v) :: o
      | None => (k, v) :: o
      end
  end.

(** [o[k] = v] on an object created by [{}].  An existing key keeps its
    place; a new array index is sorted in; any other new key is appended.
    The key [__proto__] is the accessor inherited from [Object.prototype]:
    the assignment runs its setter, which creates no own property (it
    changes the prototype when [v] is an object or null, and does nothing
    for any other [v]). *)
Definition obj_set (k : string) (v : value) (o : props) : props :=
  if decide (k = proto) then o
  else if decide (k ∈ obj_keys o) then obj_update k v o
  else match array_index k with
       | Some n => obj_insert_index n k v o
       | None => o ++ [(k, v)]
       end.

(** [v.k] read as a value, where that cannot throw. *)
Definition prop (v : value) (k : string) : value :=
  match v with VObj o => obj_get k o | _ => VUndefined end.

(** [v.k]: a property of undefined or null cannot be read. *)
Definition get (v : value) (k : string) : outcome value :=
  match v with
  | VUndefined | VNull => Thrown (TypeError "Cannot read property of undefined or null")
  | _ => Returned (prop v k)
  end.

(** [l.forEach(f)] threading the state [f] writes; the first throw ends it. *)
Fixpoint forEach {A S : Type} (f : S → A → outcome S) (l : list A) (s : S) : outcome S :=
  match l with
  | [] => Returned s
  | a :: l' => f s a ≫= forEach f l'
  end.

Section Keys.

(** [Function.prototype.toString]: the source text of a function. *)
Variable Function_toString : nat → string.

(** ToPropertyKey, for the values of the model (no symbols).  It is the
    spelling of JavaScript for the primitive values: undefined, null, the
    booleans, the strings, and the safe integers, which print as their
    decimal digits (a number of [10^21] or more prints in exponent form,
    which is not spelled here).  An object is given the key of
    [Object.prototype.toString], that is, it is taken not to define
    [toString] or [valueOf] itself. *)
Definition ToPropertyKey (v : value) : string :=
  match v with
  | VUndefined => "undefined"
  | VNull => "null"
  | VBool true => "true"
  | VBool false => "false"
  | VNum n => pretty n
  | VStr s => s
  | VFun f => Function_toString f
  | VObs _ | VObj _ => "[object Object]"
  end.

End Keys.

End JS.

Import JS.

(** ** The state machine of a source stream

    What [createSource] allocates: the [BehaviorSubject] behind [state$], the
    registry [observers], the reply [Subject]s, and the [mergeMap] that turns
    event messages into state updates.  Subscribers are passive: what each one
    is sent is recorded in [received], in delivery order. *)

Inductive notification :=
  | StateNext (subscriber : nat) (v : value)
  | ReplyNext (subscriber : nat) (v : value)
  | ReplyComplete (subscriber : nat).

Record source := Source {
  (** [stateSubject.getValue()] *)
  stateSubject : value;
  (** the subscribers of [state$], oldest first *)
  stateObservers : list nat;
  (** [let observers = []], the registered handlers *)
  observers : list nat;
  (** the property [fn.subject] of every function object [fn] *)
  fn_subject : gmap nat nat;
  (** the subscribers of each reply [Subject], oldest first *)
  subjectObservers : gmap nat (list nat);
  (** how many [Subject]s [createEvent] has allocated *)
  subjects : nat;
  (** the inner subscriptions of [mergeMap]: the handler and what its
      returned sequence has still to emit *)
  inner : list (nat * list value);
  (** whether the subscription [event$.subscribe(...)] has been torn down *)
  closed : bool;
  received : list notification;
}.

(** The Event Message [{ type: fn, params }]. *)
Record message := Message { type : nat; params : list value }.

(** What [mergeMap] hands to the subscriber: [{ state, subject }]. *)
Record event := Event { state : value; subject : option nat }.

(** The closure [createEvent] returns: it captures [fn] and [subject]. *)
Record dispatcher := Dispatcher { d_fn : nat; d_subject : nat }.

(** The cold sequence [subject.first()]. *)
Inductive reply := first (subj : nat).

Definition with_inner (l : list (nat * list value)) (s : source) : source :=
  Source (stateSubject s) (stateObservers s) (observers s) (fn_subject s)
    (subjectObservers s) (subjects s) l (closed s) (received s).

(** [new Rx.BehaviorSubject(initialState)], [observers = []], and the
    subscription to [event$]. *)
Definition machine (initialState : value) : source :=
  Source initialState [] [] ∅ ∅ 0 [] false [].

(** [stateSubject.next(v)] *)
Definition BehaviorSubject_next (v : value) (s : source) : source :=
  Source v (stateObservers s) (observers s) (fn_subject s)
    (subjectObservers s) (subjects s) (inner s) (closed s)
    (received s ++ ((λ k, StateNext k v) <$> stateObservers s)).

Definition waiting (subj : nat) (s : source) : list nat :=
  default [] (subjectObservers s !! subj).

(** [subject.next(v)] on a reply subject: every [first()] subscriber is sent
    [v], completes and unsubscribes. *)
Definition Subject_next (subj : nat) (v : value) (s : source) : source :=
  Source (stateSubject s) (stateObservers s) (observers s) (fn_subject s)
    (<[subj := []]> (subjectObservers s)) (subjects s) (inner s) (closed s)
    (received s ++ (waiting subj s ≫= (λ k, [ReplyNext k v; ReplyComplete k]))).

(** [state$.subscribe(k)]: the [BehaviorSubject] replays its value at once. *)
Definition subscribe_state (k : nat) (s : source) : source :=
  Source (stateSubject s) (stateObservers s ++ [k]) (observers s) (fn_subject s)
    (subjectObservers s) (subjects s) (inner s) (closed s)
    (received s ++ [StateNext k (stateSubject s)]).

(** [subject.first().subscribe(k)]: a plain [Subject] replays nothing. *)
Definition subscribe_reply (k : nat) (r : reply) (s : source) : source :=
  match r with
  | first subj =>
      Source (stateSubject s) (stateObservers s) (observers s) (fn_subject s)
        (<[subj := waiting subj s ++ [k]]> (subjectObservers s)) (subjects s)
        (inner s) (closed s) (received s)
  end.

(** An error reaching the subscriber of [event$], which has no error
    callback: RxJS unsubscribes the whole chain and rethrows. *)
Definition unsubscribe (s : source) : source :=
  Source (stateSubject s) (stateObservers s) (observers s) (fn_subject s)
    (subjectObservers s) (subjects s) [] true (received s).

(** [createEvent(fn)] *)
Definition createEvent (fn : value) (s : source) : outcome dispatcher * source :=
  match fn with
  | VFun f =>
      let subject := subjects s in
      (Returned (Dispatcher f subject),
       Source (stateSubject s) (stateObservers s) (observers s ++ [f])
         (<[f := subject]> (fn_subject s)) (subjectObservers s) (S subject)
         (inner s) (closed s) (received s))
  | _ => (Thrown (Error "Expected param of createEvent to be a function."), s)
  end.

(** [createEvent(fn)] of another source stream: function objects are shared,
    so its [fn.subject = subject] is visible here; its registry is not. *)
Definition createEvent_elsewhere (fn : value) (s : source) : source :=
  match fn with
  | VFun f =>
      let subject := subjects s in
      Source (stateSubject s) (stateObservers s) (observers s)
        (<[f := subject]> (fn_subject s)) (subjectObservers s) (S subject)
        (inner s) (closed s) (received s)
  | _ => s
  end.

Section Source.

(** The functions of the program under test.  [call f args] is [f(...args)]
    for an updater or an observer function.  [handler f e params] stands for
    [f(Rx.Observable.of(e), ...params).map(...)] as [mergeMap] merges it in:
    it gives the values that [f]'s result delivers, the emissions of an
    Observable or the elements of an array (which are delivered at once,
    during the call of the dispatcher), in order; it is [Thrown] when
    evaluating that expression throws, which is when [f] throws or when its
    result has no method [map] (undefined, a number, a Promise). *)
Variable call : nat → list value → outcome value.
Variable handler : nat → value → list value → outcome (list value).

(** The projection of [mergeMap]. *)
Definition project (event : message) (s : source) : outcome unit * source :=
  let currentObserver := List.find (λ observer, bool_decide (observer = type event)) (observers s) in
  let currentEvent := VObj [("state", stateSubject s)] in
  match currentObserver with
  | Some f =>
      match handler f currentEvent (params event) with
      | Returned emissions => (Returned (), with_inner (inner s ++ [(f, emissions)]) s)
      | Thrown e => (Thrown e, unsubscribe s)
      end
  | None => (Returned (), s)
  end.

(** [eventEmitter.emit(event)]: the one listener feeds [event$], whose
    subscriber ignores it once it is closed. *)
Definition emit (event : message) (s : source) : outcome unit * source :=
  if closed s then (Returned (), s) else project event s.

(** The callback of [event$.subscribe].  Its argument is the object literal
    built by [map], so the guard [if (!event)] never fires. *)
Definition subscriber (event : event) (s : source) : outcome unit * source :=
  let updater := state event in
  if is_undefined updater then (Returned (), s)
  else
    let nextState :=
      match updater with
      | VFun f => call f [stateSubject s]
      | _ => Returned updater
      end in
    match nextState with
    | Thrown e => (Thrown e, s)
    | Returned nextState =>
        let s := BehaviorSubject_next nextState s in
        match subject event with
        | Some subject => (Returned (), Subject_next subject (VObj [("state", nextState)]) s)
        | None => (Returned (), s)
        end
    end.

(** The [i]-th inner sequence emits its next value: [map] pairs it with the
    handler's current [subject] property and the subscriber runs. *)
Definition inner_next (i : nat) (s : source) : outcome unit * source :=
  if closed s then (Returned (), s)
  else
    match inner s !! i with
    | Some (f, state :: rest) =>
        let s := with_inner (<[i := (f, rest)]> (inner s)) s in
        match subscriber (Event state (fn_subject s !! f)) s with
        | (Thrown e, s) => (Thrown e, unsubscribe s)
        | r => r
        end
    | _ => (Returned (), s)
    end.

(** Calling a dispatcher: [(...params) => { eventEmitter.emit(...); return subject.first() }] *)
Definition dispatch (d : dispatcher) (params : list value) (s : source) : outcome reply * source :=
  let (r, s) := emit (Message (d_fn d) params) s in
  (r ≫= λ _, Returned (first (d_subject d)), s).

(** What can happen to a source stream. *)
Inductive action :=
  | CreateEvent (fn : value)
  | CreateEventElsewhere (fn : value)
  | Dispatch (d : dispatcher) (params : list value)
  | SubscribeReply (k : nat) (r : reply)
  | SubscribeState (k : nat)
  | InnerNext (i : nat).

Definition step (s : source) (a : action) : source :=
  match a with
  | CreateEvent fn => (createEvent fn s).2
  | CreateEventElsewhere fn => createEvent_elsewhere fn s
  | Dispatch d params => (dispatch d params s).2
  | SubscribeReply k r => subscribe_reply k r s
  | SubscribeState k => subscribe_state k s
  | InnerNext i => (inner_next i s).2
  end.

Definition run (acts : list action) (s : source) : source := foldl step s acts.

Definition reachable (s : source) : Prop :=
  ∃ initialState acts, s = run acts (machine initialState).

(** [stateObserver(state$)(observer)]; [subscribed] lists the sequences
    subscribed to so far. *)
Definition stateObserver (state_ observer : value) (subscribed : list nat)
  : outcome value * list nat :=
  match observer with
  | VFun f =>
      match call f [state_] with
      | Returned (VObs stream_) => (Returned VUndefined, subscribed ++ [stream_])
      | Returned _ => (Thrown (Error "Expected observer return an Observable instance."), subscribed)
      | Thrown e => (Thrown e, subscribed)
      end
  | _ => (Thrown (Error "Expected observer to be a function."), subscribed)
  end.

End Source.

(** ** Streams: [createSource], [createRelay], [createStateStream] *)

Definition SOURCE : string := "SOURCE".
Definition RELAY : string := "RELAY".

(** The object a constructor returns, by what it is built from.  Its
    function-valued properties are the definitions above: [createEvent],
    and [observe], which is [stateObserver(state$)] for both kinds;
    [connect] belongs to the binding layer (createConnect.js). *)
Inductive stream :=
  | SourceStateStream (name : value) (s : source)
  | RelayStateStream (name : value) (sources : list value).

Definition stream_name (st : stream) : value :=
  match st with SourceStateStream n _ | RelayStateStream n _ => n end.

Definition stream_type (st : stream) : string :=
  match st with SourceStateStream _ _ => SOURCE | RelayStateStream _ _ => RELAY end.

(** The stream as a JavaScript value, with [state_] the identity of its
    [state$]: the properties a relay reads. *)
Definition stream_object (state_ : nat) (st : stream) : value :=
  VObj [("name", stream_name st); ("state$", VObs state_); ("type", VStr (stream_type st))].

Definition createSource (name initialState : value) : stream :=
  SourceStateStream name (machine initialState).

(** *** [Rx.Observable.combineLatest]

    [values] holds the latest value of each input, [None] while the input
    has not emitted.  Input [i] emitting [v] yields all the latest values as
    soon as none is missing. *)
Definition combineLatest_next (i : nat) (v : value) (values : list (option value))
  : list (option value) * option (list value) :=
  match values !! i with
  | Some _ => let values := <[i := Some v]> values in (values, mapM id values)
  | None => (values, None)
  end.

Section Relay.

Variable Function_toString : nat → string.

Definition not_a_StateStream : error :=
  Error "Expected the source to be type of StateStream.".

(** The body of the first [sources.forEach]. *)
Definition check_source (sourceNames : props) (source : value) : outcome props :=
  if negb (String.eqb (typeof source) "object") then Thrown not_a_StateStream
  else
    name ← get source "name";
    if negb (truthy name) then Thrown not_a_StateStream
    else
      state_ ← get source "state$";
      if negb (truthy state_) then Thrown not_a_StateStream
      else
        type ← get source "type";
        if negb (truthy type) then Thrown not_a_StateStream
        else Returned (obj_set (ToPropertyKey Function_toString name) (VNum 1) sourceNames).

Definition createRelay (name : value) (sources : list value) : outcome stream :=
  if bool_decide (length sources = 0)
  then Thrown (Error "Expected the sources to be passed.")
  else
    sourceNames ← forEach check_source sources [];
    if bool_decide (length (obj_keys sourceNames) ≠ length sources)
    then Thrown (Error "Sources' name should be unique.")
    else Returned (RelayStateStream name sources).

(** The key under which a source is filed: [source.name] as a property key. *)
Definition key (source : value) : string :=
  ToPropertyKey Function_toString (prop source "name").

(** The projection given to [combineLatest]:
    [sources.forEach((source, index) => { state[source.name] = states[index] })]. *)
Definition snapshot (sources : list value) (states : list value) : props :=
  foldl (λ state '(source, v), obj_set (key source) v state) [] (zip sources states).

(** One subscription to a relay's [state$]: no input has emitted yet. *)
Definition relay_init (sources : list value) : list (option value) :=
  replicate (length sources) None.

(** Input [i] emits [v]: the new latest values and, possibly, a snapshot. *)
Definition relay_next (sources : list value) (i : nat) (v : value)
  (values : list (option value)) : list (option value) * option value :=
  let (values, states) := combineLatest_next i v values in
  (values, (λ states, VObj (snapshot sources states)) <$> states).

(** The latest values after the inputs emitted [inputs], oldest first. *)
Definition relay_values (sources : list value) (inputs : list (nat * value))
  : list (option value) :=
  foldl (λ values '(i, v), (relay_next sources i v values).1) (relay_init sources) inputs.

(** What the relay's [state$] emitted meanwhile. *)
Fixpoint relay_emits (sources : list value) (inputs : list (nat * value))
  (values : list (option value)) : list value :=
  match inputs with
  | [] => []
  | (i, v) :: inputs =>
      let (values, o) := relay_next sources i v values in
      match o with
      | Some snap => snap :: relay_emits sources inputs values
      | None => relay_emits sources inputs values
      end
  end.

(** [type.toUpperCase()] *)
Definition toUpperCase_of (v : value) : outcome value :=
  match v with
  | VStr s => Returned (VStr (toUpperCase s))
  | _ => Thrown (TypeError "toUpperCase is not a function")
  end.

(** [typeof name !== 'string' || !name] *)
Definition invalid_name (name : value) : bool :=
  negb (String.eqb (typeof name) "string") || negb (truthy name).

(** [!type || typeof type !== 'string'
     || ![SOURCE, RELAY].find(streamType => streamType === type)] *)
Definition invalid_type (type : value) : bool :=
  negb (truthy type)
  || negb (String.eqb (typeof type) "string")
  || negb (truthy (from_option VStr VUndefined
             (List.find (λ streamType, string_strict_equal streamType type)
                [SOURCE; RELAY]))).

Definition name_error : error := Error "Expected the name to be a not none string.".
Definition type_error : error := Error "Expected the type to be one of [SOURCE, RELAY].".

Definition createStateStream (name type initialState : value)
  (sources : option (list value)) : outcome (option stream) :=
  if invalid_name name then Thrown name_error
  else if invalid_type type then Thrown type_error
  else
    streamType ← toUpperCase_of type;
    if string_strict_equal SOURCE streamType
    then Returned (Some (createSource name initialState))
    else if string_strict_equal RELAY streamType
    then Some <$> createRelay name (default [] sources)
    else Returned None.

Definition createSourceStateStream (name initialState : value) : outcome (option stream) :=
  createStateStream name (VStr SOURCE) initialState (Some []).

Definition createRelayStateStream (name : value) (sources : list value)
  : outcome (option stream) :=
  createStateStream name (VStr RELAY) VNull (Some sources).

End Relay.

(** ** A program for the examples

    Handler 0 is [() => Rx.Observable.of(prev => prev + 1)], the updater
    being function 1; handler 2 is [(event$, x) => Rx.Observable.of(x)],
    possibly delayed; handler 5 emits undefined; function 3 is the observer
    [state$ => state$] and function 4 the observer [() => 0]. *)
Definition example_call (f : nat) (args : list value) : outcome value :=
  match f, args with
  | 1, [VNum prev] => Returned (VNum (prev + 1))
  | 3, [state_] => Returned state_
  | 4, _ => Returned (VNum 0)
  | _, _ => Returned VUndefined
  end.

Definition example_handler (f : nat) (event : value) (params : list value)
  : outcome (list value) :=
  match f with
  | 0 => Returned [VFun 1]
  | 2 => Returned (take 1 params)
  | 5 => Returned [VUndefined]
  | _ => Returned []
  end.

Definition example_text (f : nat) : string := "function () {}".

(** A source stream called [name], as a relay sees it. *)
Definition example_source (name : string) (state_ : nat) : value :=
  stream_object state_ (createSource (VStr name) VUndefined).

(** A counter at 5 with one subscriber of [state$], after a call of the
    dispatcher of handler 0 whose reply sequence subscriber 8 awaits. *)
Definition counter_pending : source :=
  run example_call example_handler
    [CreateEvent (VFun 0); SubscribeState 7; Dispatch (Dispatcher 0 0) [];
     SubscribeReply 8 (first 0)]
    (machine (VNum 5)).

(** A stream whose handler 5 is about to emit undefined. *)
Definition undefined_pending : source :=
  run example_call example_handler
    [CreateEvent (VFun 5); SubscribeState 7; Dispatch (Dispatcher 5 0) [];
     SubscribeReply 8 (first 0)]
    (machine (VNum 5)).


(** ** Vocabulary of the properties *)

(** What every reachable state satisfies: a registered handler carries a
    reply subject, only registered handlers have inner sequences, and a
    closed loop has none. *)
Record consistent (s : source) : Prop := {
  registered_subject : ∀ f, f ∈ observers s → is_Some (fn_subject s !! f);
  inner_registered : ∀ f l, (f, l) ∈ inner s → f ∈ observers s;
  closed_inner : closed s = true → inner s = [];
}.

(** Whether an action is a call of a dispatcher. *)
Definition dispatches (a : action) : bool :=
  match a with Dispatch _ _ => true | _ => false end.


(** [set_all kvs o]: the assignments [o[k] = v] for the pairs of [kvs], in order. *)
Definition set_all (kvs : props) (o : props) : props :=
  foldl (λ o kv, obj_set kv.1 kv.2 o) o kvs.

(** An entry of [sources] that passes the structural test: an object whose
    [name], [state$] and [type] are all truthy. *)
Definition is_StateStream (source : value) : bool :=
  match source with
  | VObj _ => truthy (prop source "name") && truthy (prop source "state$")
              && truthy (prop source "type")
  | _ => false
  end.

(** The assignments [sourceNames[source.name] = 1] of [createRelay]. *)
Definition source_names (Function_toString : nat → string) (sources : list value) : props :=
  (λ source, (key Function_toString source, VNum 1)) <$> sources.

(** The latest value input [j] emitted during [inputs], if it emitted at all. *)
Definition latest (j : nat) (inputs : list (nat * value)) : option value :=
  foldl (λ o '(i, v), if decide (i = j) then Some v else o) None inputs.

(** A non-empty string, as a value. *)
Definition nonempty_string (v : value) : Prop := ∃ s, v = VStr s ∧ s ≠ EmptyString.

(** ** The Dispatch Loop *)

Section Dispatch.

Variable call : nat → list value → outcome value.
Variable handler : nat → value → list value → outcome (list value).

Lemma consistent_machine initialState : consistent (machine initialState).
Proof.
  split; simpl.
  - intros f Hf. by apply elem_of_nil in Hf.
  - intros f l Hf. by apply elem_of_nil in Hf.
  - done.
Qed.

Lemma find_registered (f : nat) (l : list nat) :
  f ∈ l → List.find (λ observer, bool_decide (observer = f)) l = Some f.
Proof.
  induction l as [|g l IH]; intros Hf; [by apply elem_of_nil in Hf|]. simpl.
  case_bool_decide as Hg; [by subst|].
  apply IH. apply elem_of_cons in Hf as [->|Hf]; done.
Qed.

Lemma find_unregistered (f : nat) (l : list nat) :
  f ∉ l → List.find (λ observer, bool_decide (observer = f)) l = None.
Proof.
  induction l as [|g l IH]; intros Hf; [done|]. simpl.
  apply not_elem_of_cons in Hf as [Hne Hf].
  case_bool_decide; [congruence|]. by apply IH.
Qed.

Lemma subscriber_keeps event s :
  let s' := (subscriber call event s).2 in
  observers s' = observers s ∧ fn_subject s' = fn_subject s
  ∧ inner s' = inner s ∧ closed s' = closed s.
Proof.
  unfold subscriber. destruct (is_undefined (state event)); [done|].
  destruct (match state event with VFun f => _ | _ => _ end); [|done].
  by destruct (subject event).
Qed.

Lemma consistent_createEvent fn s : consistent s → consistent (createEvent fn s).2.
Proof.
  intros Hs. destruct fn; try exact Hs. destruct Hs as [Hsub Hin Hcl]. split; simpl.
  - intros g [Hg| ->%list_elem_of_singleton]%elem_of_app.
    + destruct (decide (f = g)) as [->|Hne].
      * rewrite lookup_insert_eq. by eexists.
      * rewrite lookup_insert_ne; auto.
    + rewrite lookup_insert_eq. by eexists.
  - intros g l Hg. apply elem_of_app. left. eauto.
  - done.
Qed.

Lemma consistent_createEvent_elsewhere fn s :
  consistent s → consistent (createEvent_elsewhere fn s).
Proof.
  intros Hs. destruct fn; try exact Hs. destruct Hs as [Hsub Hin Hcl]. split; simpl.
  - intros g Hg. destruct (decide (f = g)) as [->|Hne].
    + rewrite lookup_insert_eq. by eexists.
    + rewrite lookup_insert_ne; auto.
  - done.
  - done.
Qed.

Lemma consistent_emit event s : consistent s → consistent (emit handler event s).2.
Proof.
  intros Hs. unfold emit. destruct (closed s) eqn:Hc; [exact Hs|].
  unfold project. destruct (List.find _ _) as [f|] eqn:Hfind; [|exact Hs].
  destruct Hs as [Hsub Hin Hcl].
  assert (f ∈ observers s) as Hf.
  { apply find_some in Hfind as [Hf _]. by apply list_elem_of_In. }
  destruct (handler f _ _) as [emissions|e]; split; simpl.
  - exact Hsub.
  - intros g l [Hg| [= -> ->]%list_elem_of_singleton]%elem_of_app; [eauto|done].
  - congruence.
  - exact Hsub.
  - intros g l Hg. by apply elem_of_nil in Hg.
  - done.
Qed.

Lemma consistent_inner_next i s : consistent s → consistent (inner_next call i s).2.
Proof.
  intros Hs. unfold inner_next. destruct (closed s) eqn:Hc; [exact Hs|].
  destruct (inner s !! i) as [[f [|u rest]]|] eqn:Hi; try exact Hs.
  destruct Hs as [Hsub Hin Hcl].
  set (s1 := with_inner _ s).
  assert (consistent s1) as [Hsub1 Hin1 Hcl1].
  { split; simpl; try done.
    - intros g l Hg. apply list_elem_of_lookup in Hg as [j Hj].
      destruct (decide (i = j)) as [->|Hne].
      + rewrite list_lookup_insert_eq in Hj by (by eapply lookup_lt_Some).
        injection Hj as <- <-. eapply Hin, list_elem_of_lookup_2, Hi.
      + rewrite list_lookup_insert_ne in Hj by done.
        eapply Hin, list_elem_of_lookup_2, Hj.
    - congruence. }
  pose proof (subscriber_keeps (Event u (fn_subject s1 !! f)) s1) as (Ho & Hf & Hi' & Hc').
  destruct (subscriber call _ s1) as [[[]|e] s2]; simpl in *.
  - split; rewrite ?Ho, ?Hf, ?Hi', ?Hc'; done.
  - split; simpl; rewrite ?Ho, ?Hf.
    + exact Hsub1.
    + intros g l Hg. by apply elem_of_nil in Hg.
    + done.
Qed.

Lemma consistent_step s a : consistent s → consistent (step call handler s a).
Proof.
  intros Hs. destruct a as [fn|fn|d ps|k [subj]|k|i]; simpl.
  - by apply consistent_createEvent.
  - by apply consistent_createEvent_elsewhere.
  - unfold dispatch.
    pose proof (consistent_emit (Message (d_fn d) ps) s Hs) as He.
    by destruct (emit handler _ s).
  - by destruct Hs.
  - by destruct Hs.
  - by apply consistent_inner_next.
Qed.

Lemma consistent_run acts s : consistent s → consistent (run call handler acts s).
Proof.
  revert s. induction acts as [|a acts IH]; intros s Hs; [done|].
  apply IH. by apply consistent_step.
Qed.

Lemma reachable_consistent s : reachable call handler s → consistent s.
Proof. intros (v & acts & ->). apply consistent_run, consistent_machine. Qed.



Lemma run_snoc acts a s :
  run call handler (acts ++ [a]) s = step call handler (run call handler acts s) a.
Proof. unfold run. by rewrite foldl_app. Qed.




(** A call of a dispatcher answers with [first()] of the subject it captured. *)
Lemma dispatch_returns d params s emissions :
  d_fn d ∈ observers s →
  handler (d_fn d) (VObj [("state", stateSubject s)]) params = Returned emissions →
  (dispatch handler d params s).1 = Returned (first (d_subject d)).
Proof.
  intros Hf Hh. unfold dispatch, emit. destruct (closed s); [done|].
  unfold project. simpl. rewrite (find_registered _ _ Hf). by rewrite Hh.
Qed.

(** What the loop does with an update that is not undefined. *)
Lemma inner_next_defined s i f u rest nextState subject :
  closed s = false →
  inner s !! i = Some (f, u :: rest) →
  fn_subject s !! f = Some subject →
  is_undefined u = false →
  match u with VFun g => call g [stateSubject s] | _ => Returned u end = Returned nextState →
  inner_next call i s =
    (Returned (),
     Subject_next subject (VObj [("state", nextState)])
       (BehaviorSubject_next nextState (with_inner (<[i := (f, rest)]> (inner s)) s))).
Proof.
  intros Hc Hi Hs Hu Hn. unfold inner_next. rewrite Hc, Hi. unfold subscriber. simpl.
  rewrite Hu, Hs. by rewrite Hn.
Qed.

Lemma next_state_cases (s : source) (u nextState : value) :
  (typeof u ≠ "function" → nextState = u) →
  (∀ g, u = VFun g → call g [stateSubject s] = Returned nextState) →
  match u with VFun g => call g [stateSubject s] | _ => Returned u end = Returned nextState.
Proof. intros Hlit Hfun. destruct u; try (by rewrite Hlit). by apply Hfun. Qed.

(** C1. Whenever the sequence returned by a registered handler [f] emits an
    update [u] other than undefined, the loop commits [nextState], which is
    [u] itself when [u] is not a function and [u(currentState)] when it is:
    the State Cell holds [nextState], every subscriber of [state$] is sent
    it, and then [{state: nextState}] is pushed into the reply subject that
    [f] carries, resolving every reply sequence waiting on it. *)
Theorem dispatch_loop_commits (s : source) (i f : nat) (u nextState : value) (rest : list value) :
  reachable call handler s →
  inner s !! i = Some (f, u :: rest) →
  u ≠ VUndefined →
  (typeof u ≠ "function" → nextState = u) →
  (∀ g, u = VFun g → call g [stateSubject s] = Returned nextState) →
  ∃ subject,
    f ∈ observers s
    ∧ fn_subject s !! f = Some subject
    ∧ (inner_next call i s).1 = Returned ()
    ∧ stateSubject (step call handler s (InnerNext i)) = nextState
    ∧ received (step call handler s (InnerNext i)) =
        received s
        ++ ((λ k, StateNext k nextState) <$> stateObservers s)
        ++ (waiting subject s ≫= (λ k, [ReplyNext k (VObj [("state", nextState)]); ReplyComplete k])).
Proof.
  intros [Hsub Hin Hcl]%reachable_consistent Hi Hu Hlit Hfun.
  assert (f ∈ observers s) as Hf by (eapply Hin, list_elem_of_lookup_2, Hi).
  destruct (Hsub f Hf) as [subj Hsubj]. exists subj.
  assert (closed s = false) as Hc.
  { destruct (closed s); [|done]. rewrite Hcl in Hi by done. done. }
  assert (is_undefined u = false) as Hu' by (by destruct u).
  pose proof (inner_next_defined s i f u rest nextState subj Hc Hi Hsubj Hu'
                (next_state_cases s u nextState Hlit Hfun)) as Hnext.
  simpl. rewrite Hnext. simpl. by rewrite <- (assoc_L (++)).
Qed.

(** C2. When a handler's sequence emits undefined the emission is skipped:
    the callback returns at once, the State Cell keeps its value, no
    subscriber of [state$] or of a reply sequence is sent anything, and the
    reply subjects keep their subscribers waiting. *)
Theorem undefined_update_skipped (s : source) (i f : nat) (rest : list value) :
  inner s !! i = Some (f, VUndefined :: rest) →
  (inner_next call i s).1 = Returned ()
  ∧ stateSubject (step call handler s (InnerNext i)) = stateSubject s
  ∧ received (step call handler s (InnerNext i)) = received s
  ∧ subjectObservers (step call handler s (InnerNext i)) = subjectObservers s
  ∧ stateObservers (step call handler s (InnerNext i)) = stateObservers s.
Proof.
  intros Hi. simpl. unfold inner_next. destruct (closed s); [done|]. by rewrite Hi.
Qed.

(** C3. An Event Message whose handler is not in the registry is dropped:
    [emit] returns normally and the stream is exactly as before, so there is
    no state change, no reply and no notification. *)
Theorem unregistered_event_dropped (s : source) (event : message) :
  type event ∉ observers s →
  emit handler event s = (Returned (), s).
Proof.
  intros Hf. unfold emit. destruct (closed s); [done|].
  unfold project. by rewrite (find_unregistered _ _ Hf).
Qed.

(** So a call of a dispatcher whose handler is unknown only answers. *)
Lemma dispatch_unregistered d params s :
  d_fn d ∉ observers s →
  dispatch handler d params s = (Returned (first (d_subject d)), s).
Proof.
  intros Hf. unfold dispatch, emit. destruct (closed s); [done|].
  unfold project. simpl. by rewrite (find_unregistered _ _ Hf).
Qed.

Lemma undispatched_run initialState acts :
  Forall (λ a, dispatches a = false) acts →
  stateSubject (run call handler acts (machine initialState)) = initialState
  ∧ inner (run call handler acts (machine initialState)) = [].
Proof.
  induction acts as [|a acts IH] using rev_ind; intros Hacts; [done|].
  apply Forall_app in Hacts as [Hacts [Ha _]%Forall_cons].
  destruct (IH Hacts) as [Hv Hi]. rewrite run_snoc.
  destruct a as [fn|fn|d ps|k [subj]|k|i]; simpl in *; try done.
  - by destruct fn.
  - by destruct fn.
  - unfold inner_next. destruct (closed _); [done|]. by rewrite Hi.
Qed.

(** C4. Subscribing to [state$] of a source stream created with
    [initialState], whatever that value is, before any event was
    dispatched, delivers exactly [initialState] to the new subscriber, and
    does so during the subscription. *)
Theorem initial_value_replay (name initialState : value) (s : source)
    (acts : list action) (k : nat) :
  createSource name initialState = SourceStateStream name s →
  Forall (λ a, dispatches a = false) acts →
  received (subscribe_state k (run call handler acts s))
  = received (run call handler acts s) ++ [StateNext k initialState].
Proof.
  intros [= <-] Hacts. simpl.
  by destruct (undispatched_run initialState acts Hacts) as [-> _].
Qed.

End Dispatch.


(** ** Objects as key sets and snapshots *)

Section Objects.

Implicit Types (k : string) (v : value) (o : props).

Lemma obj_set_proto v o : obj_set proto v o = o.
Proof. unfold obj_set. by rewrite decide_True. Qed.

Lemma obj_update_keys k v o : obj_keys (obj_update k v o) = obj_keys o.
Proof.
  unfold obj_keys. induction o as [|[k' v'] o IH]; [done|]. csimpl.
  case_decide; csimpl; [by subst|]. by rewrite IH.
Qed.

Lemma obj_insert_index_keys n k v o :
  obj_keys (obj_insert_index n k v o) ≡ₚ obj_keys o ++ [k].
Proof.
  unfold obj_keys. induction o as [|[k' v'] o IH]; [done|]. csimpl.
  destruct (array_index k') as [n'|]; [destruct (n' <? n)%N|]; csimpl.
  - by rewrite IH.
  - change (k :: k' :: o.*1) with ([k] ++ (k' :: o.*1)). apply Permutation_app_comm.
  - change (k :: k' :: o.*1) with ([k] ++ (k' :: o.*1)). apply Permutation_app_comm.
Qed.

(** A key that is present keeps the key list; [__proto__] never enters it;
    a new key is added once, at the end unless it is an array index. *)
Lemma obj_set_keys_old k v o : k ∈ obj_keys o → obj_keys (obj_set k v o) = obj_keys o.
Proof.
  intros Hk. unfold obj_set. case_decide; [done|].
  rewrite decide_True by done. apply obj_update_keys.
Qed.

Lemma obj_set_keys_new k v o :
  k ≠ proto → k ∉ obj_keys o → obj_keys (obj_set k v o) ≡ₚ obj_keys o ++ [k].
Proof.
  intros Hp Hk. unfold obj_set. rewrite decide_False by done.
  rewrite decide_False by done. destruct (array_index k).
  - apply obj_insert_index_keys.
  - unfold obj_keys. by rewrite fmap_app.
Qed.

Lemma obj_set_keys_append k v o :
  k ≠ proto → k ∉ obj_keys o → array_index k = None →
  obj_keys (obj_set k v o) = obj_keys o ++ [k].
Proof.
  intros Hp Hk Hi. unfold obj_set. rewrite decide_False by done.
  rewrite decide_False by done. rewrite Hi. unfold obj_keys. by rewrite fmap_app.
Qed.

Lemma obj_get_absent k o : k ∉ obj_keys o → obj_get k o = VUndefined.
Proof.
  induction o as [|[k' v'] o IH]; [done|]. csimpl.
  intros [Hne Hk]%not_elem_of_cons. rewrite decide_False by done. by apply IH.
Qed.

Lemma obj_get_update k k' v o :
  obj_get k' (obj_update k v o)
  = if decide (k = k' ∧ k ∈ obj_keys o) then v else obj_get k' o.
Proof.
  induction o as [|[k0 v0] o IH]; csimpl.
  - rewrite decide_False; [done|]. intros [_ H]. by apply elem_of_nil in H.
  - destruct (decide (k0 = k)) as [->|Hne]; csimpl.
    + destruct (decide (k = k')) as [->|Hne'].
      * rewrite decide_True; [done|]. split; [done|]. apply elem_of_cons. by left.
      * rewrite decide_False; [done|]. by intros [? _].
    + rewrite IH. destruct (decide (k0 = k')) as [->|Hne'].
      * rewrite decide_False; [done|]. intros [? _]. congruence.
      * apply decide_ext. rewrite elem_of_cons. intuition congruence.
Qed.

Lemma obj_get_insert_index n k k' v o :
  k ∉ obj_keys o →
  obj_get k' (obj_insert_index n k v o) = if decide (k = k') then v else obj_get k' o.
Proof.
  induction o as [|[k0 v0] o IH]; csimpl; intros Hk.
  - by case_decide.
  - apply not_elem_of_cons in Hk as [Hne Hk].
    destruct (array_index k0) as [n'|]; [destruct (n' <? n)%N|]; csimpl; try done.
    rewrite IH by done. destruct (decide (k0 = k')) as [->|]; [|done].
    by rewrite decide_False.
Qed.

Lemma obj_get_app k' o o' :
  obj_get k' (o ++ o') = if decide (k' ∈ obj_keys o) then obj_get k' o else obj_get k' o'.
Proof.
  induction o as [|[k0 v0] o IH]; csimpl.
  - done.
  - destruct (decide (k0 = k')) as [->|Hne].
    + rewrite decide_True; [done|]. apply elem_of_cons. by left.
    + rewrite IH. apply decide_ext. rewrite elem_of_cons. intuition congruence.
Qed.

Lemma obj_get_set k k' v o :
  obj_get k' (obj_set k v o) = if decide (k = k' ∧ k ≠ proto) then v else obj_get k' o.
Proof.
  unfold obj_set. destruct (decide (k = proto)) as [->|Hp].
  { rewrite decide_False; [done|]. by intros [_ ?]. }
  destruct (decide (k ∈ obj_keys o)) as [Hk|Hk].
  { rewrite obj_get_update. apply decide_ext. tauto. }
  destruct (array_index k).
  - rewrite obj_get_insert_index by done. apply decide_ext. tauto.
  - rewrite obj_get_app. csimpl. destruct (decide (k = k')) as [->|Hne].
    + repeat case_decide; tauto.
    + repeat case_decide; try tauto. by rewrite obj_get_absent.
Qed.

Lemma obj_set_keys_cases k v o :
  ((k = proto ∨ k ∈ obj_keys o) ∧ obj_keys (obj_set k v o) = obj_keys o)
  ∨ (k ≠ proto ∧ (k ∉ obj_keys o) ∧ (obj_keys (obj_set k v o) ≡ₚ obj_keys o ++ [k])).
Proof.
  destruct (decide (k = proto)) as [->|Hp].
  { left. rewrite obj_set_proto. auto. }
  destruct (decide (k ∈ obj_keys o)) as [Hk|Hk].
  - left. split; [by right|]. by apply obj_set_keys_old.
  - right. split_and!; try done. by apply obj_set_keys_new.
Qed.

Lemma set_all_length kvs o :
  length (obj_keys (set_all kvs o)) ≤ length (obj_keys o) + length kvs.
Proof.
  revert o. induction kvs as [|[k v] kvs IH]; intros o; csimpl; [lia|].
  specialize (IH (obj_set k v o)).
  destruct (obj_set_keys_cases k v o) as [[_ Hk]|(_ & _ & Hk)]; rewrite Hk in IH.
  - lia.
  - rewrite length_app in IH. simpl in IH. lia.
Qed.

(** As many keys as assignments: then the assigned keys were pairwise
    distinct, new, and none was [__proto__]. *)
Lemma set_all_full kvs o :
  length (obj_keys (set_all kvs o)) = length (obj_keys o) + length kvs →
  NoDup (kvs.*1) ∧ (proto ∉ kvs.*1) ∧ ∀ k, k ∈ kvs.*1 → k ∉ obj_keys o.
Proof.
  revert o. induction kvs as [|[k v] kvs IH]; intros o; csimpl; intros Hlen.
  { split_and!; [constructor|apply not_elem_of_nil|]. intros k Hk. by apply elem_of_nil in Hk. }
  pose proof (set_all_length kvs (obj_set k v o)) as Hle.
  destruct (obj_set_keys_cases k v o) as [[_ Hk]|(Hp & Hnew & Hk)].
  { rewrite Hk in Hle. lia. }
  destruct (IH (obj_set k v o)) as (Hnd & Hnp & Hfresh).
  { rewrite Hk, length_app. simpl. lia. }
  assert (∀ k', k' ∈ kvs.*1 → k' ≠ k ∧ k' ∉ obj_keys o) as Hrest.
  { intros k' Hk'. apply Hfresh in Hk'. rewrite Hk, elem_of_app, list_elem_of_singleton in Hk'.
    split; [intros ->|]; tauto. }
  split_and!.
  - constructor; [|done]. intros Hin. by destruct (Hrest k Hin).
  - apply not_elem_of_cons. split; [done|done].
  - intros k' [->|Hk']%elem_of_cons; [done|]. by destruct (Hrest k' Hk').
Qed.

Lemma set_all_keys kvs o :
  NoDup kvs.*1 → proto ∉ kvs.*1 → (∀ k, k ∈ kvs.*1 → k ∉ obj_keys o) →
  obj_keys (set_all kvs o) ≡ₚ obj_keys o ++ kvs.*1.
Proof.
  revert o. induction kvs as [|[k v] kvs IH]; intros o; csimpl; intros Hnd Hp Hfresh.
  { by rewrite app_nil_r. }
  apply NoDup_cons in Hnd as [Hk Hnd]. apply not_elem_of_cons in Hp as [Hpk Hp].
  assert (obj_keys (obj_set k v o) ≡ₚ obj_keys o ++ [k]) as Hset.
  { apply obj_set_keys_new; [done|]. apply Hfresh, elem_of_cons. by left. }
  rewrite IH; try done.
  - rewrite Hset. by rewrite <- (assoc_L (++)).
  - intros k' Hk'. rewrite Hset, elem_of_app, list_elem_of_singleton.
    intros [Hin| ->]; [|done]. eapply Hfresh; [|done]. apply elem_of_cons. by right.
Qed.

(** Without array indices among the keys, enumeration order is assignment order. *)
Lemma set_all_keys_ordered kvs o :
  NoDup kvs.*1 → proto ∉ kvs.*1 → (∀ k, k ∈ kvs.*1 → k ∉ obj_keys o) →
  Forall (λ k, array_index k = None) kvs.*1 →
  obj_keys (set_all kvs o) = obj_keys o ++ kvs.*1.
Proof.
  revert o. induction kvs as [|[k v] kvs IH]; intros o; csimpl; intros Hnd Hp Hfresh Hidx.
  { by rewrite app_nil_r. }
  apply NoDup_cons in Hnd as [Hk Hnd]. apply not_elem_of_cons in Hp as [Hpk Hp].
  apply Forall_cons in Hidx as [Hik Hidx].
  assert (obj_keys (obj_set k v o) = obj_keys o ++ [k]) as Hset.
  { apply obj_set_keys_append; try done. apply Hfresh, elem_of_cons. by left. }
  rewrite IH; try done.
  - rewrite Hset. by rewrite <- (assoc_L (++)).
  - intros k' Hk'. rewrite Hset, elem_of_app, list_elem_of_singleton.
    intros [Hin| ->]; [|done]. eapply Hfresh; [|done]. apply elem_of_cons. by right.
Qed.

Lemma set_all_get_other k kvs o :
  k ∉ kvs.*1 → obj_get k (set_all kvs o) = obj_get k o.
Proof.
  revert o. induction kvs as [|[k' v] kvs IH]; intros o; csimpl; [done|].
  intros [Hne Hk]%not_elem_of_cons. rewrite IH by done.
  rewrite obj_get_set. rewrite decide_False; [done|]. intros [? _]. congruence.
Qed.

(** Each key reads back the value assigned to it. *)
Lemma set_all_get kvs o j k v :
  NoDup kvs.*1 → proto ∉ kvs.*1 → kvs !! j = Some (k, v) →
  obj_get k (set_all kvs o) = v.
Proof.
  revert o j. induction kvs as [|[k' v'] kvs IH]; intros o j; csimpl; intros Hnd Hp Hj; [done|].
  apply NoDup_cons in Hnd as [Hk Hnd]. apply not_elem_of_cons in Hp as [Hpk Hp].
  destruct j as [|j]; simpl in Hj.
  - injection Hj as -> ->. rewrite set_all_get_other by done.
    rewrite obj_get_set. by rewrite decide_True.
  - by eapply IH.
Qed.

End Objects.

(** ** Relay streams *)

Section RelayProperties.

Variable Function_toString : nat → string.

#[local] Abbreviation key := (key Function_toString).
#[local] Abbreviation check := (check_source Function_toString).

Lemma check_source_accepts sourceNames source :
  is_StateStream source = true →
  check sourceNames source = Returned (obj_set (key source) (VNum 1) sourceNames).
Proof.
  destruct source; try done. unfold is_StateStream, check_source. simpl.
  intros [[-> ->]%andb_true_iff ->]%andb_true_iff. done.
Qed.

Lemma check_source_rejects sourceNames source :
  is_StateStream source = false → ∃ e, check sourceNames source = Thrown e.
Proof.
  destruct source; try (by eexists). unfold is_StateStream, check_source. simpl.
  destruct (truthy (obj_get "name" props)); [|by eexists].
  destruct (truthy (obj_get "state$" props)); [|by eexists].
  destruct (truthy (obj_get "type" props)); [done|by eexists].
Qed.

Lemma forEach_check_accepts sources sourceNames :
  Forall (λ source, is_StateStream source = true) sources →
  forEach check sources sourceNames = Returned (set_all (source_names Function_toString sources) sourceNames).
Proof.
  revert sourceNames. induction sources as [|source sources IH]; intros o Hall; [done|].
  apply Forall_cons in Hall as [Hs Hall]. simpl.
  rewrite check_source_accepts by done. simpl. by apply IH.
Qed.

Lemma forEach_check_returns sources sourceNames o :
  forEach check sources sourceNames = Returned o →
  Forall (λ source, is_StateStream source = true) sources.
Proof.
  revert sourceNames. induction sources as [|source sources IH]; intros o' Hret; [constructor|].
  simpl in Hret. destruct (is_StateStream source) eqn:Hs.
  - rewrite check_source_accepts in Hret by done. constructor; [done|]. by eapply IH.
  - destruct (check_source_rejects o' source Hs) as [e He]. by rewrite He in Hret.
Qed.

Lemma source_names_keys sources : (source_names Function_toString sources).*1 = key <$> sources.
Proof. unfold source_names. rewrite <- list_fmap_compose. done. Qed.

(** When [createRelay] returns: the list is not empty, every entry passes
    the structural test, no two entries are filed under the same key, and
    no key is [__proto__]. *)
Lemma createRelay_returns name sources st :
  createRelay Function_toString name sources = Returned st →
  st = RelayStateStream name sources
  ∧ sources ≠ []
  ∧ Forall (λ source, is_StateStream source = true) sources
  ∧ NoDup (key <$> sources)
  ∧ proto ∉ key <$> sources.
Proof.
  unfold createRelay. case_bool_decide as Hlen; [done|].
  destruct (forEach _ sources []) as [o|e] eqn:Hcheck; [|done]. simpl.
  case_bool_decide as Hkeys; [done|]. intros [= <-].
  pose proof (forEach_check_returns _ _ _ Hcheck) as Hall.
  rewrite forEach_check_accepts in Hcheck by done. injection Hcheck as <-.
  destruct (set_all_full (source_names Function_toString sources) []) as (Hnd & Hp & _).
  { rewrite Hkeys. unfold source_names. by rewrite length_fmap. }
  rewrite source_names_keys in Hnd, Hp.
  split_and!; try done. by intros ->.
Qed.

Lemma createRelay_accepts name sources :
  sources ≠ [] →
  Forall (λ source, is_StateStream source = true) sources →
  NoDup (key <$> sources) →
  proto ∉ key <$> sources →
  createRelay Function_toString name sources = Returned (RelayStateStream name sources).
Proof.
  intros Hne Hall Hnd Hp. unfold createRelay.
  rewrite bool_decide_eq_false_2 by (by destruct sources).
  rewrite forEach_check_accepts by done. simpl.
  rewrite bool_decide_eq_false_2; [done|]. intros Hlen. apply Hlen.
  rewrite set_all_keys.
  - simpl. rewrite source_names_keys. by rewrite !length_fmap.
  - by rewrite source_names_keys.
  - by rewrite source_names_keys.
  - intros k _. apply not_elem_of_nil.
Qed.

(** [createRelay] throws exactly when the list is empty, an entry fails the
    structural test, two entries share a key, or a key is [__proto__]. *)
Lemma createRelay_throws_iff name sources :
  (∃ e, createRelay Function_toString name sources = Thrown e)
  ↔ sources = []
    ∨ ¬ Forall (λ source, is_StateStream source = true) sources
    ∨ ¬ NoDup (key <$> sources)
    ∨ proto ∈ key <$> sources.
Proof.
  split.
  - intros [e He].
    destruct (decide (sources = [])) as [|Hne]; [by left|].
    destruct (decide (Forall (λ source, is_StateStream source = true) sources)) as [Hall|];
      [|by right; left].
    destruct (decide (NoDup (key <$> sources))) as [Hnd|]; [|by right; right; left].
    destruct (decide (proto ∈ key <$> sources)) as [|Hp]; [by right; right; right|].
    by rewrite createRelay_accepts in He.
  - intros Hbad. destruct (createRelay _ name sources) as [st|e] eqn:Hr; [|by eexists].
    apply createRelay_returns in Hr as (_ & Hne & Hall & Hnd & Hp).
    by destruct Hbad as [?|[?|[?|?]]].
Qed.

Lemma latest_snoc j inputs i v :
  latest j (inputs ++ [(i, v)]) = if decide (i = j) then Some v else latest j inputs.
Proof. unfold latest. by rewrite foldl_snoc. Qed.

Lemma relay_next_values sources i v values :
  (relay_next Function_toString sources i v values).1 = <[i := Some v]> values.
Proof.
  unfold relay_next, combineLatest_next.
  destruct (values !! i) eqn:Hi; simpl; [done|].
  symmetry. apply list_insert_ge. by apply lookup_ge_None.
Qed.

Lemma relay_values_snoc sources inputs i v :
  relay_values Function_toString sources (inputs ++ [(i, v)])
  = <[i := Some v]> (relay_values Function_toString sources inputs).
Proof. unfold relay_values. rewrite foldl_snoc. apply relay_next_values. Qed.

Lemma relay_values_length sources inputs :
  length (relay_values Function_toString sources inputs) = length sources.
Proof.
  induction inputs as [|[i v] inputs IH] using rev_ind.
  - apply length_replicate.
  - by rewrite relay_values_snoc, length_insert.
Qed.

(** [values] holds, for each input, the latest value it emitted. *)
Lemma relay_values_lookup sources inputs j :
  j < length sources →
  relay_values Function_toString sources inputs !! j = Some (latest j inputs).
Proof.
  intros Hj. induction inputs as [|[i v] inputs IH] using rev_ind.
  - by apply lookup_replicate_2.
  - rewrite relay_values_snoc, latest_snoc, list_lookup_insert, relay_values_length.
    destruct (decide (i = j)) as [->|Hne].
    + by rewrite decide_True.
    + rewrite decide_False; [done|]. by intros [? _].
Qed.

Lemma snapshot_set_all sources states :
  snapshot Function_toString sources states = set_all (zip (key <$> sources) states) [].
Proof.
  unfold snapshot, set_all. generalize (@nil (string * value)).
  revert states. induction sources as [|source sources IH]; intros [|x states] o; try done.
  simpl. apply IH.
Qed.

(** C5. For a relay that [createRelay] built, an emission [v] of input [i]
    makes [state$] emit exactly when every input has emitted by then.  The
    snapshot maps the key of each source to the latest value of that source
    and has no other key; its keys enumerate in the order the sources were
    given provided no key is an array index. *)
Theorem relay_snapshot (name : value) (sources : list value) (st : stream)
    (inputs : list (nat * value)) (i : nat) (v : value) :
  createRelay Function_toString name sources = Returned st →
  i < length sources →
  match (relay_next Function_toString sources i v
           (relay_values Function_toString sources inputs)).2 with
  | None => ∃ j, j < length sources ∧ latest j (inputs ++ [(i, v)]) = None
  | Some snap =>
      ∃ o, snap = VObj o
      ∧ (∀ j source, sources !! j = Some source →
           ∃ x, latest j (inputs ++ [(i, v)]) = Some x ∧ obj_get (key source) o = x)
      ∧ obj_keys o ≡ₚ key <$> sources
      ∧ NoDup (obj_keys o)
      ∧ (Forall (λ source, array_index (key source) = None) sources →
         obj_keys o = key <$> sources)
  end.
Proof.
  intros (_ & _ & _ & Hnd & Hp)%createRelay_returns Hi.
  pose proof (relay_values_lookup sources (inputs ++ [(i, v)])) as Hlookup.
  rewrite relay_values_snoc in Hlookup.
  unfold relay_next, combineLatest_next.
  destruct (relay_values _ sources inputs !! i) as [old|] eqn:Hold; simpl.
  2: { apply lookup_ge_None in Hold. rewrite relay_values_length in Hold. lia. }
  set (values := <[i := Some v]> _) in *.
  destruct (mapM id values) as [states|] eqn:Hstates; simpl.
  - apply mapM_Some in Hstates.
    assert (length states = length sources) as Hlen.
    { rewrite <- (Forall2_length _ _ _ Hstates). unfold values.
      by rewrite length_insert, relay_values_length. }
    assert ((zip (key <$> sources) states).*1 = key <$> sources) as Hfst.
    { apply fst_zip. rewrite length_fmap. lia. }
    eexists. split; [done|]. rewrite snapshot_set_all. split_and!.
    + intros j source Hj.
      assert (j < length sources) as Hlt by (by eapply lookup_lt_Some).
      destruct (Forall2_lookup_l _ _ _ _ _ Hstates (Hlookup j Hlt)) as (x & Hx & Hsome).
      exists x. split; [done|].
      apply (set_all_get _ _ j); rewrite ?Hfst; try done.
      apply lookup_zip_Some. split; [|done]. by rewrite list_lookup_fmap, Hj.
    + rewrite set_all_keys; rewrite ?Hfst; try done.
      intros k _. apply not_elem_of_nil.
    + rewrite set_all_keys; rewrite ?Hfst; try done.
      intros k _. apply not_elem_of_nil.
    + intros Hidx. rewrite set_all_keys_ordered; rewrite ?Hfst; try done.
      * intros k _. apply not_elem_of_nil.
      * by apply Forall_fmap.
  - apply mapM_None, Exists_exists in Hstates as (o & [j Hj]%list_elem_of_lookup & Ho).
    simpl in Ho. subst o.
    assert (j < length sources) as Hlt.
    { apply lookup_lt_Some in Hj. unfold values in Hj.
      by rewrite length_insert, relay_values_length in Hj. }
    exists j. split; [done|]. rewrite (Hlookup j Hlt) in Hj. congruence.
Qed.

End RelayProperties.

(** ** The factory and the observation adapter *)

Section Factory.

Variable Function_toString : nat → string.

#[local] Abbreviation check := (check_source Function_toString).

Lemma invalid_name_false name : invalid_name name = false ↔ nonempty_string name.
Proof.
  unfold invalid_name, nonempty_string. split.
  - destruct name as [| |b|n|s|f|o|o]; simpl; rewrite ?orb_true_r; try done.
    destruct s; [done|]. intros _. by eexists.
  - intros (s & -> & Hs). by destruct s.
Qed.

Lemma invalid_type_false type : invalid_type type = false ↔ type = VStr SOURCE ∨ type = VStr RELAY.
Proof.
  unfold invalid_type. split.
  - intros Ht.
    destruct type as [| |b|n|s|f|o|o];
      try (simpl in Ht; rewrite ?orb_true_r in Ht; done).
    cbn [List.find string_strict_equal] in Ht.
    destruct (String.eqb_spec SOURCE s) as [Hs|_]; [left; congruence|].
    destruct (String.eqb_spec RELAY s) as [Hs|_]; [right; congruence|].
    simpl in Ht. by rewrite orb_true_r in Ht.
  - by intros [-> | ->].
Qed.

Lemma check_source_throws sourceNames source e :
  check sourceNames source = Thrown e →
  e = not_a_StateStream ∨ e = TypeError "Cannot read property of undefined or null".
Proof.
  unfold check_source. destruct source; simpl; try (intros [= <-]; by auto).
  destruct (truthy (obj_get "name" props)); simpl; [|intros [= <-]; by auto].
  destruct (truthy (obj_get "state$" props)); simpl; [|intros [= <-]; by auto].
  destruct (truthy (obj_get "type" props)); simpl; [done|intros [= <-]; by auto].
Qed.

Lemma forEach_check_throws sources sourceNames e :
  forEach check sources sourceNames = Thrown e →
  e = not_a_StateStream ∨ e = TypeError "Cannot read property of undefined or null".
Proof.
  revert sourceNames. induction sources as [|source sources IH]; intros o; [done|].
  simpl. destruct (check o source) as [o'|e'] eqn:Hc; simpl.
  - apply IH.
  - intros [= <-]. by eapply check_source_throws.
Qed.

(** The errors of [createRelay] are not those of the factory's own checks. *)
Lemma createRelay_throws name sources e :
  createRelay Function_toString name sources = Thrown e →
  e ≠ name_error ∧ e ≠ type_error.
Proof.
  unfold createRelay. case_bool_decide; [by intros [= <-]|].
  destruct (forEach _ sources []) as [o|e'] eqn:Hc; simpl.
  - case_bool_decide; [by intros [= <-]|done].
  - intros [= <-]. by destruct (forEach_check_throws _ _ _ Hc) as [-> | ->].
Qed.

Lemma createStateStream_source name initialState sources :
  nonempty_string name →
  createStateStream Function_toString name (VStr SOURCE) initialState sources
  = Returned (Some (createSource name initialState)).
Proof.
  intros Hn%invalid_name_false. unfold createStateStream. by rewrite Hn.
Qed.

Lemma createStateStream_relay name initialState sources :
  nonempty_string name →
  createStateStream Function_toString name (VStr RELAY) initialState sources
  = Some <$> createRelay Function_toString name (default [] sources).
Proof.
  intros Hn%invalid_name_false. unfold createStateStream. by rewrite Hn.
Qed.

(** C7. [createStateStream] throws the name error exactly when [name] is
    not a non-empty string, and the type error exactly when [name] is fine
    and [type] is not one of the strings SOURCE and RELAY as they stand (the
    membership test precedes the uppercase normalization); with a valid name
    it hands SOURCE to [createSource] and RELAY to [createRelay]. *)
Theorem createStateStream_validation (name type initialState : value)
    (sources : option (list value)) :
  (createStateStream Function_toString name type initialState sources = Thrown name_error
   ↔ ¬ nonempty_string name)
  ∧ (createStateStream Function_toString name type initialState sources = Thrown type_error
     ↔ nonempty_string name ∧ type ≠ VStr SOURCE ∧ type ≠ VStr RELAY)
  ∧ (nonempty_string name → type = VStr SOURCE →
     createStateStream Function_toString name type initialState sources
     = Returned (Some (createSource name initialState)))
  ∧ (nonempty_string name → type = VStr RELAY →
     createStateStream Function_toString name type initialState sources
     = Some <$> createRelay Function_toString name (default [] sources)).
Proof.
  split_and!.
  - rewrite <- invalid_name_false. unfold createStateStream.
    destruct (invalid_name name); [by split|]. split; [|done].
    destruct (invalid_type type) eqn:Ht; [done|].
    apply invalid_type_false in Ht as [-> | ->]; simpl; [done|].
    destruct (createRelay _ _ _) as [st|e] eqn:Hr; [done|]. simpl.
    intros [= ->]. by destruct (createRelay_throws _ _ _ Hr).
  - rewrite <- invalid_name_false. unfold createStateStream.
    destruct (invalid_name name); [split; [done|by intros [? _]]|].
    destruct (invalid_type type) eqn:Ht.
    + split; [|done]. intros _. split; [done|].
      split; intros ->; discriminate Ht.
    + split; [|intros (_ & Hs & Hr); apply invalid_type_false in Ht as [?|?]; done].
      apply invalid_type_false in Ht as [-> | ->]; simpl; [done|].
      destruct (createRelay _ _ _) as [st|e] eqn:Hr; [done|]. simpl.
      intros [= ->]. by destruct (createRelay_throws _ _ _ Hr).
  - intros Hn ->. by apply createStateStream_source.
  - intros Hn ->. by apply createStateStream_relay.
Qed.

(** C10. On an input that passes both checks the factory never returns
    null: the type is then SOURCE or RELAY, which [toUpperCase] leaves as it
    is, so the result is the stream built by [createSource], or whatever
    [createRelay] answers for its sources, a relay stream or its error. *)
Theorem createStateStream_never_null (name type initialState : value)
    (sources : option (list value)) :
  invalid_name name = false →
  invalid_type type = false →
  (toUpperCase_of type = Returned (VStr SOURCE) ∨ toUpperCase_of type = Returned (VStr RELAY))
  ∧ createStateStream Function_toString name type initialState sources ≠ Returned None
  ∧ (createStateStream Function_toString name type initialState sources
     = Returned (Some (createSource name initialState))
     ∨ (∃ e, createStateStream Function_toString name type initialState sources = Thrown e
             ∧ createRelay Function_toString name (default [] sources) = Thrown e)
     ∨ createStateStream Function_toString name type initialState sources
       = Returned (Some (RelayStateStream name (default [] sources)))).
Proof.
  intros Hn [-> | ->]%invalid_type_false; unfold createStateStream; rewrite Hn; simpl.
  - split_and!; [by left|done|by left].
  - destruct (createRelay _ _ _) as [st|e] eqn:Hr; simpl.
    + apply createRelay_returns in Hr as (-> & _).
      split_and!; [by right|done|by right; right].
    + split_and!; [by right|done|]. right. left. by exists e.
Qed.

End Factory.

Section Observe.

Variable call : nat → list value → outcome value.

(** C8. [observe(observer)] throws when [observer] is not a function;
    otherwise it calls [observer(state$)] and throws when what comes back is
    not an Observable; otherwise it subscribes to that sequence and returns
    undefined, so no handle reaches the caller. *)
Theorem observe_contract (state_ observer : value) (subscribed : list nat) :
  (typeof observer ≠ "function" →
   stateObserver call state_ observer subscribed
   = (Thrown (Error "Expected observer to be a function."), subscribed))
  ∧ (∀ f v, observer = VFun f → call f [state_] = Returned v → (∀ o, v ≠ VObs o) →
     stateObserver call state_ observer subscribed
     = (Thrown (Error "Expected observer return an Observable instance."), subscribed))
  ∧ (∀ f stream_, observer = VFun f → call f [state_] = Returned (VObs stream_) →
     stateObserver call state_ observer subscribed
     = (Returned VUndefined, subscribed ++ [stream_])).
Proof.
  split_and!.
  - by destruct observer.
  - intros f v -> Hv Hobs. simpl. rewrite Hv. destruct v; try done. by destruct (Hobs o).
  - intros f o -> Hv. simpl. by rewrite Hv.
Qed.

End Observe.

(** ** Reply sequences, and the examples of the specification *)




(** C1 at the counter: the updater [prev => prev + 1] applied at 5 commits 6. *)
Lemma dispatch_loop_commits_counter :
  ∃ subject,
    0 ∈ observers counter_pending
    ∧ fn_subject counter_pending !! 0 = Some subject
    ∧ (inner_next example_call 0 counter_pending).1 = Returned ()
    ∧ stateSubject (step example_call example_handler counter_pending (InnerNext 0)) = VNum 6
    ∧ received (step example_call example_handler counter_pending (InnerNext 0)) =
        received counter_pending
        ++ ((λ k, StateNext k (VNum 6)) <$> stateObservers counter_pending)
        ++ (waiting subject counter_pending
            ≫= (λ k, [ReplyNext k (VObj [("state", VNum 6)]); ReplyComplete k])).
Proof.
  apply (dispatch_loop_commits example_call example_handler counter_pending 0 0
           (VFun 1) (VNum 6) []).
  - by eexists (VNum 5), _.
  - reflexivity.
  - discriminate.
  - intros H. by destruct H.
  - intros g [= <-]. reflexivity.
Defined.

Lemma undefined_update_skipped_example :
  (inner_next example_call 0 undefined_pending).1 = Returned ()
  ∧ stateSubject (step example_call example_handler undefined_pending (InnerNext 0)) = VNum 5
  ∧ received (step example_call example_handler undefined_pending (InnerNext 0))
    = [StateNext 7 (VNum 5)]
  ∧ subjectObservers (step example_call example_handler undefined_pending (InnerNext 0))
    = subjectObservers undefined_pending
  ∧ stateObservers (step example_call example_handler undefined_pending (InnerNext 0))
    = stateObservers undefined_pending.
Proof.
  apply (undefined_update_skipped example_call example_handler undefined_pending 0 5 []).
  reflexivity.
Defined.

Lemma unregistered_event_dropped_example :
  emit example_handler (Message 9 [VNum 1]) counter_pending = (Returned (), counter_pending).
Proof.
  apply (unregistered_event_dropped example_handler counter_pending (Message 9 [VNum 1])).
  simpl. intros [[=]|[]%elem_of_nil]%elem_of_cons.
Defined.

Lemma initial_value_replay_undefined :
  received
    (subscribe_state 1
       (run example_call example_handler [CreateEvent (VFun 0); SubscribeState 7]
          (machine VUndefined)))
  = received
      (run example_call example_handler [CreateEvent (VFun 0); SubscribeState 7]
         (machine VUndefined))
    ++ [StateNext 1 VUndefined].
Proof.
  apply (initial_value_replay example_call example_handler (VStr "counter") VUndefined
           (machine VUndefined) [CreateEvent (VFun 0); SubscribeState 7] 1).
  - reflexivity.
  - by repeat constructor.
Defined.

(** The relay of the specification: sources A and B, A going from 1 to 2
    while B stays at x. *)
Lemma relay_combination_example :
  relay_emits example_text [example_source "A" 0; example_source "B" 1]
    [(0, VNum 1); (1, VStr "x"); (0, VNum 2)]
    (relay_init [example_source "A" 0; example_source "B" 1])
  = [VObj [("A", VNum 1); ("B", VStr "x")]; VObj [("A", VNum 2); ("B", VStr "x")]].
Proof. reflexivity. Qed.

Lemma relay_snapshot_example :
  match (relay_next example_text [example_source "A" 0; example_source "B" 1] 1 (VStr "x")
           (relay_values example_text [example_source "A" 0; example_source "B" 1]
              [(0, VNum 1)])).2 with
  | None => ∃ j, j < 2 ∧ latest j ([(0, VNum 1)] ++ [(1, VStr "x")]) = None
  | Some snap =>
      ∃ o, snap = VObj o
      ∧ (∀ j source, [example_source "A" 0; example_source "B" 1] !! j = Some source →
           ∃ x, latest j ([(0, VNum 1)] ++ [(1, VStr "x")]) = Some x
                ∧ obj_get (key example_text source) o = x)
      ∧ obj_keys o ≡ₚ key example_text <$> [example_source "A" 0; example_source "B" 1]
      ∧ NoDup (obj_keys o)
      ∧ (Forall (λ source, array_index (key example_text source) = None)
           [example_source "A" 0; example_source "B" 1] →
         obj_keys o = key example_text <$> [example_source "A" 0; example_source "B" 1])
  end.
Proof.
  apply (relay_snapshot example_text (VStr "r") [example_source "A" 0; example_source "B" 1]
           (RelayStateStream (VStr "r") [example_source "A" 0; example_source "B" 1])
           [(0, VNum 1)] 1 (VStr "x")).
  - reflexivity.
  - simpl. lia.
Defined.

(** C5, as the specification states it, fails on key order: a relay over
    sources named 2 and 1, given in that order, emits snapshots whose keys
    enumerate as 1, 2. *)
Lemma relay_key_order_numeric :
  createRelay example_text (VStr "r") [example_source "2" 0; example_source "1" 1]
  = Returned (RelayStateStream (VStr "r") [example_source "2" 0; example_source "1" 1])
  ∧ relay_emits example_text [example_source "2" 0; example_source "1" 1]
      [(0, VStr "a"); (1, VStr "b")]
      (relay_init [example_source "2" 0; example_source "1" 1])
    = [VObj [("1", VStr "b"); ("2", VStr "a")]]
  ∧ obj_keys [("1", VStr "b"); ("2", VStr "a")]
    ≠ key example_text <$> [example_source "2" 0; example_source "1" 1].
Proof. by split_and!. Qed.

(** C6. The examples of the specification throw, and so does a relay over
    a single, well-formed source stream whose name is [__proto__]: the
    assignment [sourceNames[source.name] = 1] adds no key for that name, and
    the count of keys falls short of the count of sources. *)
Theorem relay_rejects_proto_name :
  createRelayStateStream example_text (VStr "r") []
  = Thrown (Error "Expected the sources to be passed.")
  ∧ createRelayStateStream example_text (VStr "r") [example_source "s" 0; example_source "s" 1]
    = Thrown (Error "Sources' name should be unique.")
  ∧ createSourceStateStream example_text (VStr "__proto__") VUndefined
    = Returned (Some (createSource (VStr "__proto__") VUndefined))
  ∧ is_StateStream (example_source "__proto__" 0) = true
  ∧ NoDup (key example_text <$> [example_source "__proto__" 0])
  ∧ createRelayStateStream example_text (VStr "r") [example_source "__proto__" 0]
    = Thrown (Error "Sources' name should be unique.").
Proof.
  split_and!; try reflexivity. apply NoDup_singleton.
Qed.

(** C7, as the specification states it, fails on a lowercase type: its
    uppercase form is SOURCE, yet the factory throws the type error. *)
Lemma lowercase_type_rejected :
  toUpperCase "source" = SOURCE
  ∧ createStateStream example_text (VStr "counter") (VStr "source") (VNum 0) None
    = Thrown type_error.
Proof. by split. Qed.

Lemma createStateStream_validation_example :
  createStateStream example_text (VStr "counter") (VStr SOURCE) (VNum 0) None
  = Returned (Some (createSource (VStr "counter") (VNum 0))).
Proof.
  refine (proj1 (proj2 (proj2
            (createStateStream_validation example_text (VStr "counter") (VStr SOURCE)
               (VNum 0) None))) _ _).
  - by exists "counter".
  - reflexivity.
Defined.

(** C10, as the specification states it, fails for a relay without
    sources: both checks pass and no stream object is returned. *)
Lemma validated_relay_throws :
  invalid_name (VStr "r") = false
  ∧ invalid_type (VStr RELAY) = false
  ∧ createStateStream example_text (VStr "r") (VStr RELAY) VNull (Some [])
    = Thrown (Error "Expected the sources to be passed.").
Proof. by split_and!. Qed.

Lemma createStateStream_never_null_example :
  (toUpperCase_of (VStr RELAY) = Returned (VStr SOURCE)
   ∨ toUpperCase_of (VStr RELAY) = Returned (VStr RELAY))
  ∧ createStateStream example_text (VStr "r") (VStr RELAY) VNull
      (Some [example_source "A" 0]) ≠ Returned None
  ∧ (createStateStream example_text (VStr "r") (VStr RELAY) VNull (Some [example_source "A" 0])
     = Returned (Some (createSource (VStr "r") VNull))
     ∨ (∃ e, createStateStream example_text (VStr "r") (VStr RELAY) VNull
               (Some [example_source "A" 0]) = Thrown e
             ∧ createRelay example_text (VStr "r") (default [] (Some [example_source "A" 0]))
               = Thrown e)
     ∨ createStateStream example_text (VStr "r") (VStr RELAY) VNull (Some [example_source "A" 0])
       = Returned (Some (RelayStateStream (VStr "r") (default [] (Some [example_source "A" 0]))))).
Proof.
  apply (createStateStream_never_null example_text (VStr "r") (VStr RELAY) VNull
           (Some [example_source "A" 0])); reflexivity.
Defined.

Lemma observe_contract_example :
  stateObserver example_call (VObs 0) (VFun 3) [] = (Returned VUndefined, [0]).
Proof.
  refine (proj2 (proj2 (observe_contract example_call (VObs 0) (VFun 3) [])) 3 0 _ _);
    reflexivity.
Defined.

(** The three outcomes of [observe], on concrete observers. *)
Lemma observe_examples :
  stateObserver example_call (VObs 0) (VNum 1) []
  = (Thrown (Error "Expected observer to be a function."), [])
  ∧ stateObserver example_call (VObs 0) (VFun 4) []
    = (Thrown (Error "Expected observer return an Observable instance."), [])
  ∧ stateObserver example_call (VObs 0) (VFun 3) [] = (Returned VUndefined, [0]).
Proof. by split_and!. Qed.

(** * Further properties of the code *)

(** ** Vocabulary *)

(** The values subscriber [k] of [state$] was sent, oldest first. *)
Definition delivered (k : nat) (l : list notification) : list value :=
  omap (λ n, match n with
             | StateNext k' v => if decide (k' = k) then Some v else None
             | _ => None
             end) l.

(** The replies subscriber [k] of a reply sequence was sent, oldest first. *)
Definition replies (k : nat) (l : list notification) : list value :=
  omap (λ n, match n with
             | ReplyNext k' v => if decide (k' = k) then Some v else None
             | _ => None
             end) l.

(** Whether an action subscribes to [state$]. *)
Definition subscribes_state (a : action) : bool :=
  match a with SubscribeState _ => true | _ => false end.

(** A name that is a primitive value of JavaScript: undefined, null, a
    boolean, a string or a safe integer.  For these [ToPropertyKey] is the
    spelling of JavaScript. *)
Definition primitive_name (v : value) : Prop :=
  match v with
  | VUndefined | VNull | VBool _ | VStr _ => True
  | VNum n => (Z.abs n < 2 ^ 53)%Z
  | VFun _ | VObs _ | VObj _ => False
  end.

(** The entries of [sources] whose [name] is a primitive value or missing. *)
Definition primitive_names (sources : list value) : Prop :=
  Forall (λ source, primitive_name (prop source "name")) sources.

(** The reply subjects in use are allocated ones, and no two functions
    carry the same one. *)
Record allocated (s : source) : Prop := {
  subject_allocated : ∀ f a, fn_subject s !! f = Some a → a < subjects s;
  subject_owner : ∀ f g a, fn_subject s !! f = Some a → fn_subject s !! g = Some a → f = g;
}.

(** ** Reply subjects *)

Section Replies.

Variable call : nat → list value → outcome value.
Variable handler : nat → value → list value → outcome (list value).

Lemma subscriber_subjects event s :
  subjects (subscriber call event s).2 = subjects s.
Proof.
  unfold subscriber. destruct (is_undefined (state event)); [done|].
  destruct (match state event with VFun f => _ | _ => _ end); [|done].
  by destruct (subject event).
Qed.

(** Only the two forms of [createEvent] touch the [subject] properties. *)
Lemma step_subjects s a :
  (fn_subject (step call handler s a) = fn_subject s
   ∧ subjects (step call handler s a) = subjects s)
  ∨ (∃ f, fn_subject (step call handler s a) = <[f := subjects s]> (fn_subject s)
          ∧ subjects (step call handler s a) = S (subjects s)).
Proof.
  destruct a as [fn|fn|d ps|k [subj]|k|i]; simpl; try (by left).
  - destruct fn; simpl; try (by left). right. by eexists.
  - destruct fn; simpl; try (by left). right. by eexists.
  - left. unfold dispatch, emit. destruct (closed s); [done|]. unfold project.
    destruct (List.find _ _); [|done]. by destruct (handler _ _ _).
  - left. unfold inner_next. destruct (closed s); [done|].
    destruct (inner s !! i) as [[g [|u rest]]|]; try done.
    set (s1 := with_inner _ s).
    pose proof (subscriber_keeps call (Event u (fn_subject s1 !! g)) s1) as (_ & Hf & _).
    pose proof (subscriber_subjects (Event u (fn_subject s1 !! g)) s1) as Hn.
    destruct (subscriber call _ s1) as [[[]|e] s2]; simpl in *; by rewrite Hf, Hn.
Qed.

Lemma allocated_step s a : allocated s → allocated (step call handler s a).
Proof.
  intros [Hlt Hown]. destruct (step_subjects s a) as [[Hf Hn]|(f & Hf & Hn)].
  { split; rewrite Hf, ?Hn; done. }
  split; rewrite Hf, ?Hn.
  - intros g a' Hg. destruct (decide (f = g)) as [->|Hne].
    + rewrite lookup_insert_eq in Hg. injection Hg as <-. lia.
    + rewrite lookup_insert_ne in Hg by done. apply Hlt in Hg. lia.
  - intros g h a' Hg Hh.
    destruct (decide (f = g)) as [Hg'|Hg']; destruct (decide (f = h)) as [Hh'|Hh'];
      try subst g; try subst h.
    + done.
    + rewrite lookup_insert_eq in Hg. rewrite lookup_insert_ne in Hh by done.
      injection Hg as <-. apply Hlt in Hh. lia.
    + rewrite lookup_insert_eq in Hh. rewrite lookup_insert_ne in Hg by done.
      injection Hh as <-. apply Hlt in Hg. lia.
    + rewrite lookup_insert_ne in Hg, Hh by done. by eapply Hown.
Qed.

Lemma reachable_allocated s : reachable call handler s → allocated s.
Proof.
  intros (v & acts & ->). induction acts as [|a acts IH] using rev_ind.
  - split; intros *; simpl; by rewrite lookup_empty.
  - rewrite run_snoc. by apply allocated_step.
Qed.

(** X1. In every reachable state two different functions never carry the
    same reply subject, and the subject that the next [createEvent] will
    allocate is carried by none. *)
Theorem reply_subjects_distinct (s : source) (f g : nat) (a b : nat) :
  reachable call handler s →
  fn_subject s !! f = Some a →
  fn_subject s !! g = Some b →
  f ≠ g →
  a ≠ b ∧ a ≠ subjects s ∧ b ≠ subjects s.
Proof.
  intros [Hlt Hown]%reachable_allocated Hf Hg Hne. split_and!.
  - intros <-. by destruct Hne; eapply Hown.
  - apply Hlt in Hf. lia.
  - apply Hlt in Hg. lia.
Qed.

Lemma inner_next_waiting s i f l b :
  inner s !! i = Some (f, l) →
  fn_subject s !! f ≠ Some b →
  waiting b (inner_next call i s).2 = waiting b s.
Proof.
  intros Hi Hb. unfold inner_next. destruct (closed s); [done|]. rewrite Hi.
  destruct l as [|u rest]; [done|]. unfold subscriber. simpl.
  destruct (is_undefined u); [done|].
  destruct (match u with VFun g => _ | _ => _ end); [|done].
  destruct (fn_subject s !! f) as [c|] eqn:Hc; simpl; [|done].
  unfold waiting. simpl. rewrite lookup_insert_ne; [done|]. congruence.
Qed.

(** X2. An emission of the sequence of handler [f] leaves the reply
    sequences of every other handler [g] waiting: whatever the update is,
    the subscribers of the subject that [g] carries stay as they were. *)
Theorem update_keeps_other_replies (s : source) (i f g b : nat) (l : list value) :
  reachable call handler s →
  inner s !! i = Some (f, l) →
  g ≠ f →
  fn_subject s !! g = Some b →
  waiting b (step call handler s (InnerNext i)) = waiting b s.
Proof.
  intros [_ Hown]%reachable_allocated Hi Hne Hg. simpl.
  eapply inner_next_waiting; [done|]. intros Hf. destruct Hne. by eapply Hown.
Qed.

End Replies.

(** ** Subscribers of [state$] *)

Section Subscribers.

Variable call : nat → list value → outcome value.
Variable handler : nat → value → list value → outcome (list value).

Lemma delivered_app k l l' : delivered k (l ++ l') = delivered k l ++ delivered k l'.
Proof. apply omap_app. Qed.

Lemma replies_app k l l' : replies k (l ++ l') = replies k l ++ replies k l'.
Proof. apply omap_app. Qed.

Lemma delivered_reply k v (ks : list nat) :
  delivered k (ks ≫= (λ k', [ReplyNext k' v; ReplyComplete k'])) = [].
Proof. induction ks as [|k' ks IH]; [done|]. by csimpl. Qed.

Lemma delivered_state_next k v (ks : list nat) :
  delivered k ((λ k', StateNext k' v) <$> ks) = (λ _, v) <$> filter (λ k', k' = k) ks.
Proof.
  induction ks as [|k' ks IH]; [done|]. csimpl. rewrite filter_cons.
  unfold delivered in *. csimpl. destruct (decide (k' = k)); csimpl; by rewrite IH.
Qed.

Lemma replies_state_next k v (ks : list nat) :
  replies k ((λ k', StateNext k' v) <$> ks) = [].
Proof. induction ks as [|k' ks IH]; [done|]. by csimpl. Qed.


(** What one action other than a subscription to [state$] does: it commits
    at most one value [v], which every subscriber of [state$] is sent. *)
Lemma step_effect s a :
  subscribes_state a = false →
  ∃ (c : list value) (rs : list notification),
    (c = [] ∨ ∃ v, c = [v])
    ∧ stateObservers (step call handler s a) = stateObservers s
    ∧ stateSubject (step call handler s a) = default (stateSubject s) (last c)
    ∧ received (step call handler s a)
      = received s ++ (c ≫= (λ v, (λ k, StateNext k v) <$> stateObservers s)) ++ rs
    ∧ ∀ k, delivered k rs = [].
Proof.
  intros Ha.
  assert (∀ s' : source, stateObservers s' = stateObservers s →
            stateSubject s' = stateSubject s → received s' = received s →
            ∃ (c : list value) (rs : list notification),
              (c = [] ∨ ∃ v, c = [v])
              ∧ stateObservers s' = stateObservers s
              ∧ stateSubject s' = default (stateSubject s) (last c)
              ∧ received s'
                = received s ++ (c ≫= (λ v, (λ k, StateNext k v) <$> stateObservers s)) ++ rs
              ∧ ∀ k, delivered k rs = []) as Hsame.
  { intros s' Ho Hv Hr. exists [], []. split_and!.
    - by left.
    - done.
    - done.
    - csimpl. by rewrite Hr, app_nil_r.
    - done. }
  destruct a as [fn|fn|d ps|k [subj]|k|i]; simpl; try done.
  - apply Hsame; by destruct fn.
  - apply Hsame; by destruct fn.
  - apply Hsame; unfold dispatch, emit; destruct (closed s); try done; unfold project;
      (destruct (List.find _ _); [|done]); by destruct (handler _ _ _).
  - by apply Hsame.
  - unfold inner_next. destruct (closed s); [by apply Hsame|].
    destruct (inner s !! i) as [[f [|u rest]]|]; try (by apply Hsame).
    unfold subscriber. simpl. destruct (is_undefined u); [by apply Hsame|].
    destruct (match u with VFun g => _ | _ => _ end) as [nextState|e]; [|by apply Hsame].
    destruct (fn_subject s !! f) as [subj|]; simpl.
    + exists [nextState], (waiting subj s ≫= (λ k, [ReplyNext k (VObj [("state", nextState)]); ReplyComplete k])).
      split_and!.
      * right. by eexists.
      * done.
      * done.
      * csimpl. by rewrite app_nil_r, <- (assoc_L (++)).
      * intros k. apply delivered_reply.
    + exists [nextState], []. split_and!.
      * right. by eexists.
      * done.
      * done.
      * csimpl. by rewrite !app_nil_r.
      * done.
Qed.

Lemma last_fmap_const (v : value) (l : list value) (ks : list nat) :
  ks ≠ [] → last (l ++ ((λ _, v) <$> ks)) = Some v.
Proof.
  intros Hks. destruct ks as [|k ks _] using rev_ind; [done|].
  rewrite fmap_app. csimpl. by rewrite (assoc_L (++)), last_snoc.
Qed.

(** X3. Every subscriber of [state$] is up to date: in every reachable
    state, the value a subscriber was sent last is the value the State Cell
    holds. *)
Theorem state_subscribers_current (s : source) (k : nat) :
  reachable call handler s →
  k ∈ stateObservers s →
  last (delivered k (received s)) = Some (stateSubject s).
Proof.
  intros (v0 & acts & ->). revert k.
  induction acts as [|a acts IH] using rev_ind; intros k Hk.
  { by apply elem_of_nil in Hk. }
  rewrite run_snoc in *. set (s := run call handler acts (machine v0)) in *.
  destruct (subscribes_state a) eqn:Ha.
  - destruct a as [| | | |k0|]; try done. simpl in *.
    rewrite delivered_app. apply elem_of_app in Hk as [Hk|Hk%list_elem_of_singleton].
    + unfold delivered at 2. csimpl. destruct (decide (k0 = k)) as [->|Hne]; csimpl.
      * by rewrite last_snoc.
      * rewrite app_nil_r. by apply IH.
    + subst k0. unfold delivered at 2. csimpl. rewrite decide_True by done. csimpl.
      by rewrite last_snoc.
  - destruct (step_effect s a Ha) as (c & rs & Hc & Ho & Hv & Hr & Hrs).
    rewrite Ho in Hk. rewrite Hv, Hr, !delivered_app, Hrs, app_nil_r.
    destruct Hc as [->|[v ->]]; csimpl.
    + rewrite app_nil_r. by apply IH.
    + rewrite app_nil_r, delivered_state_next. apply last_fmap_const.
      intros Hnil. assert (k ∈ filter (λ k', k' = k) (stateObservers s)) as Hin
        by (by apply list_elem_of_filter).
      rewrite Hnil in Hin. by apply elem_of_nil in Hin.
Qed.



(** X5. The registry only grows, and at its end: the handlers registered in
    a state are a prefix of those registered in any later state. *)
Theorem registry_append_only (s : source) (acts : list action) :
  observers s `prefix_of` observers (run call handler acts s).
Proof.
  induction acts as [|a acts IH] using rev_ind; [done|].
  rewrite run_snoc. etrans; [exact IH|]. clear IH.
  generalize (run call handler acts s). clear s. intros s.
  destruct a as [fn|fn|d ps|k [subj]|k|i]; simpl; try done.
  - destruct fn; simpl; try done. by apply prefix_app_r.
  - by destruct fn.
  - unfold dispatch, emit. destruct (closed s); [done|]. unfold project.
    destruct (List.find _ _); [|done]. by destruct (handler _ _ _).
  - unfold inner_next. destruct (closed s); [done|].
    destruct (inner s !! i) as [[g [|u rest]]|]; try done.
    set (s1 := with_inner _ s).
    pose proof (subscriber_keeps call (Event u (fn_subject s1 !! g)) s1) as (Ho & _).
    destruct (subscriber call _ s1) as [[[]|e] s2]; simpl in *; by rewrite Ho.
Qed.

End Subscribers.

(** ** Calls, replies and faults *)

Section Calls.

Variable call : nat → list value → outcome value.
Variable handler : nat → value → list value → outcome (list value).

Lemma dispatch_enqueues d params s emissions :
  closed s = false →
  d_fn d ∈ observers s →
  handler (d_fn d) (VObj [("state", stateSubject s)]) params = Returned emissions →
  dispatch handler d params s
  = (Returned (first (d_subject d)), with_inner (inner s ++ [(d_fn d, emissions)]) s).
Proof.
  intros Hc Hf Hh. unfold dispatch, emit. rewrite Hc. unfold project. simpl.
  rewrite (find_registered _ _ Hf). by rewrite Hh.
Qed.

Lemma literal_next_state (s : source) (v : value) :
  typeof v ≠ "function" →
  match v with VFun g => call g [stateSubject s] | _ => Returned v end = Returned v.
Proof. intros Hv. by destruct v. Qed.

(** X6. Round trip of an event whose handler answers later with a literal
    value [v]: the caller subscribes to the reply sequence, the sequence of
    the handler emits, and then [v] is the state, every subscriber of
    [state$] was sent [v], the caller (with everyone else who waited) was
    sent [{state: v}] and completed, and a later subscriber of [state$] is
    sent [v] first. *)
Theorem event_round_trip (s : source) (d : dispatcher) (params rest : list value)
    (v : value) (k k' : nat) :
  closed s = false →
  d_fn d ∈ observers s →
  fn_subject s !! d_fn d = Some (d_subject d) →
  handler (d_fn d) (VObj [("state", stateSubject s)]) params = Returned (v :: rest) →
  v ≠ VUndefined →
  typeof v ≠ "function" →
  stateSubject
    (run call handler
       [Dispatch d params; SubscribeReply k (first (d_subject d)); InnerNext (length (inner s))] s)
  = v
  ∧ received
      (run call handler
         [Dispatch d params; SubscribeReply k (first (d_subject d)); InnerNext (length (inner s));
          SubscribeState k'] s)
    = received s
      ++ ((λ j, StateNext j v) <$> stateObservers s)
      ++ ((waiting (d_subject d) s ++ [k])
          ≫= (λ j, [ReplyNext j (VObj [("state", v)]); ReplyComplete j]))
      ++ [StateNext k' v].
Proof.
  intros Hc Hf Hsubj Hh Hu Hlit. unfold run. simpl.
  rewrite (dispatch_enqueues d params s _ Hc Hf Hh). simpl.
  set (s2 := Source _ _ _ _ _ _ _ _ _).
  assert (is_undefined v = false) as Hu' by (by destruct v).
  rewrite (inner_next_defined call s2 (length (inner s)) (d_fn d) v rest v (d_subject d)).
  - simpl. split; [done|]. unfold waiting. simpl. rewrite lookup_insert_eq. simpl.
    by rewrite <- !(assoc_L (++)).
  - done.
  - simpl. by rewrite lookup_app_r, Nat.sub_diag.
  - done.
  - done.
  - by apply literal_next_state.
Qed.

(** X7. A handler that answers at once answers nobody new: when its
    sequence emits before the caller has subscribed to the reply sequence
    that the call returns, that subscription is sent nothing and waits for
    the next reply. *)
Theorem synchronous_reply_missed (s : source) (d : dispatcher) (params rest : list value)
    (v : value) (k : nat) :
  closed s = false →
  d_fn d ∈ observers s →
  fn_subject s !! d_fn d = Some (d_subject d) →
  handler (d_fn d) (VObj [("state", stateSubject s)]) params = Returned (v :: rest) →
  v ≠ VUndefined →
  typeof v ≠ "function" →
  stateSubject
    (run call handler
       [Dispatch d params; InnerNext (length (inner s)); SubscribeReply k (first (d_subject d))] s)
  = v
  ∧ received
      (run call handler
         [Dispatch d params; InnerNext (length (inner s)); SubscribeReply k (first (d_subject d))] s)
    = received s
      ++ ((λ j, StateNext j v) <$> stateObservers s)
      ++ (waiting (d_subject d) s
          ≫= (λ j, [ReplyNext j (VObj [("state", v)]); ReplyComplete j]))
  ∧ waiting (d_subject d)
      (run call handler
         [Dispatch d params; InnerNext (length (inner s)); SubscribeReply k (first (d_subject d))] s)
    = [k].
Proof.
  intros Hc Hf Hsubj Hh Hu Hlit. unfold run. simpl.
  rewrite (dispatch_enqueues d params s _ Hc Hf Hh). simpl.
  set (s2 := with_inner _ s).
  assert (is_undefined v = false) as Hu' by (by destruct v).
  rewrite (inner_next_defined call s2 (length (inner s)) (d_fn d) v rest v (d_subject d)).
  - simpl. split_and!; [done|by rewrite <- !(assoc_L (++))|].
    unfold waiting. simpl. rewrite !lookup_insert_eq. done.
  - done.
  - simpl. by rewrite lookup_app_r, Nat.sub_diag.
  - done.
  - done.
  - by apply literal_next_state.
Qed.

(** X8. A handler whose sequence emits twice: both updates are committed,
    in order, and sent to the subscribers of [state$]; the reply sequences
    waiting on the handler resolve with the first and are not sent the
    second. *)
Theorem reply_resolves_once (s : source) (i f : nat) (u1 u2 n1 n2 : value)
    (rest : list value) :
  reachable call handler s →
  inner s !! i = Some (f, u1 :: u2 :: rest) →
  u1 ≠ VUndefined →
  u2 ≠ VUndefined →
  (typeof u1 ≠ "function" → n1 = u1) →
  (∀ g, u1 = VFun g → call g [stateSubject s] = Returned n1) →
  (typeof u2 ≠ "function" → n2 = u2) →
  (∀ g, u2 = VFun g → call g [n1] = Returned n2) →
  ∃ subject,
    fn_subject s !! f = Some subject
    ∧ stateSubject (run call handler [InnerNext i; InnerNext i] s) = n2
    ∧ received (run call handler [InnerNext i; InnerNext i] s)
      = received s
        ++ ((λ k, StateNext k n1) <$> stateObservers s)
        ++ (waiting subject s
            ≫= (λ k, [ReplyNext k (VObj [("state", n1)]); ReplyComplete k]))
        ++ ((λ k, StateNext k n2) <$> stateObservers s).
Proof.
  intros [Hsub Hin Hcl]%reachable_consistent Hi Hu1 Hu2 Hl1 Hf1 Hl2 Hf2.
  assert (f ∈ observers s) as Hf by (eapply Hin, list_elem_of_lookup_2, Hi).
  destruct (Hsub f Hf) as [subj Hsubj]. exists subj. split; [done|].
  assert (closed s = false) as Hc.
  { destruct (closed s); [|done]. rewrite Hcl in Hi by done. done. }
  assert (is_undefined u1 = false) as Hu1' by (by destruct u1).
  assert (is_undefined u2 = false) as Hu2' by (by destruct u2).
  unfold run. simpl.
  rewrite (inner_next_defined call s i f u1 (u2 :: rest) n1 subj Hc Hi Hsubj Hu1'
             (next_state_cases call s u1 n1 Hl1 Hf1)). simpl.
  set (s2 := Subject_next _ _ _).
  rewrite (inner_next_defined call s2 i f u2 rest n2 subj).
  - simpl. split; [done|]. unfold waiting at 2. simpl. rewrite lookup_insert_eq. simpl.
    by rewrite app_nil_r, <- !(assoc_L (++)).
  - done.
  - simpl. apply list_lookup_insert_eq. by eapply lookup_lt_Some.
  - done.
  - done.
  - apply (next_state_cases call s2 u2 n2 Hl2). intros g Hg. by apply Hf2.
Qed.

Lemma closed_step s a :
  closed s = true →
  closed (step call handler s a) = true
  ∧ stateSubject (step call handler s a) = stateSubject s
  ∧ ∀ k, replies k (received (step call handler s a)) = replies k (received s).
Proof.
  intros Hc. destruct a as [fn|fn|d ps|k [subj]|k|i]; simpl.
  - by destruct fn.
  - by destruct fn.
  - unfold dispatch, emit. by rewrite Hc.
  - done.
  - split_and!; try done. intros k'. rewrite replies_app. csimpl. by rewrite app_nil_r.
  - unfold inner_next. by rewrite Hc.
Qed.

Lemma closed_run s acts :
  closed s = true →
  closed (run call handler acts s) = true
  ∧ stateSubject (run call handler acts s) = stateSubject s
  ∧ ∀ k, replies k (received (run call handler acts s)) = replies k (received s).
Proof.
  intros Hc. induction acts as [|a acts (Hc' & Hv & Hr)] using rev_ind; [done|].
  rewrite run_snoc. destruct (closed_step _ a Hc') as (? & Hv' & Hr').
  split_and!; [done|congruence|]. intros k. by rewrite Hr', Hr.
Qed.

(** X9. A handler whose call throws ends the loop: the call of the
    dispatcher rethrows, and whatever happens afterwards the State Cell
    keeps its value and no reply is sent. *)
Theorem handler_fault_stops_loop (s : source) (d : dispatcher) (params : list value)
    (e : error) (acts : list action) :
  closed s = false →
  d_fn d ∈ observers s →
  handler (d_fn d) (VObj [("state", stateSubject s)]) params = Thrown e →
  (dispatch handler d params s).1 = Thrown e
  ∧ stateSubject (run call handler (Dispatch d params :: acts) s) = stateSubject s
  ∧ ∀ k, replies k (received (run call handler (Dispatch d params :: acts) s))
         = replies k (received s).
Proof.
  intros Hc Hf Hh.
  assert (dispatch handler d params s = (Thrown e, unsubscribe s)) as Hd.
  { unfold dispatch, emit. rewrite Hc. unfold project. simpl.
    rewrite (find_registered _ _ Hf). by rewrite Hh. }
  split; [by rewrite Hd|].
  change (run call handler (Dispatch d params :: acts) s)
    with (run call handler acts (dispatch handler d params s).2).
  rewrite Hd. simpl. by destruct (closed_run (unsubscribe s) acts eq_refl) as (_ & ? & ?).
Qed.

(** X10. An updater function that throws ends the loop as well: its update
    is not committed, nobody is notified, and whatever happens afterwards
    the State Cell keeps its value and no reply is sent. *)
Theorem updater_fault_stops_loop (s : source) (i f g : nat) (rest : list value)
    (e : error) (acts : list action) :
  closed s = false →
  inner s !! i = Some (f, VFun g :: rest) →
  call g [stateSubject s] = Thrown e →
  (inner_next call i s).1 = Thrown e
  ∧ received (step call handler s (InnerNext i)) = received s
  ∧ stateSubject (run call handler (InnerNext i :: acts) s) = stateSubject s
  ∧ ∀ k, replies k (received (run call handler (InnerNext i :: acts) s))
         = replies k (received s).
Proof.
  intros Hc Hi Hg.
  assert (inner_next call i s
          = (Thrown e, unsubscribe (with_inner (<[i := (f, rest)]> (inner s)) s))) as Hn.
  { unfold inner_next. rewrite Hc, Hi. unfold subscriber. simpl. by rewrite Hg. }
  split; [by rewrite Hn|]. split; [simpl; by rewrite Hn|].
  change (run call handler (InnerNext i :: acts) s)
    with (run call handler acts (inner_next call i s).2).
  rewrite Hn. simpl.
  by destruct (closed_run (unsubscribe (with_inner (<[i := (f, rest)]> (inner s)) s)) acts eq_refl)
    as (_ & ? & ?).
Qed.

End Calls.

(** ** Relays and the factory *)

Section Relays.

Variable Function_toString : nat → string.


Definition unique_error : error := Error "Sources' name should be unique.".

(** X11. For entries whose names are primitive values, [createRelay]
    throws exactly when the list is empty, an entry fails the structural
    test (it is no object, or its [name], [state$] or [type] is falsy), two
    entries share a key, or a key is [__proto__]. *)
Theorem createRelay_throws_exactly (name : value) (sources : list value) :
  primitive_names sources →
  (∃ e, createRelay Function_toString name sources = Thrown e)
  ↔ sources = []
    ∨ ¬ Forall (λ source, is_StateStream source = true) sources
    ∨ ¬ NoDup (key Function_toString <$> sources)
    ∨ proto ∈ key Function_toString <$> sources.
Proof. intros _. apply createRelay_throws_iff. Qed.

(** X12. The uniqueness error is the last resort of [createRelay]: for
    entries whose names are primitive values, it is thrown exactly when the
    list is not empty, every entry passes the structural test, and two
    entries share a key or a key is [__proto__]. *)
Theorem createRelay_unique_error (name : value) (sources : list value) :
  primitive_names sources →
  createRelay Function_toString name sources = Thrown unique_error
  ↔ sources ≠ []
    ∧ Forall (λ source, is_StateStream source = true) sources
    ∧ (¬ NoDup (key Function_toString <$> sources) ∨ proto ∈ key Function_toString <$> sources).
Proof.
  intros _. split.
  - intros Hr.
    assert (sources ≠ []) as Hne.
    { intros ->. discriminate Hr. }
    assert (Forall (λ source, is_StateStream source = true) sources) as Hall.
    { unfold createRelay in Hr. rewrite bool_decide_eq_false_2 in Hr by (by destruct sources).
      destruct (forEach _ sources []) as [o|e'] eqn:Hc; simpl in Hr.
      - by eapply forEach_check_returns.
      - injection Hr as ->.
        by destruct (forEach_check_throws _ _ _ _ Hc) as [Hbad|Hbad]. }
    split_and!; [done|done|].
    destruct (decide (NoDup (key Function_toString <$> sources))) as [Hnd|]; [|by left].
    destruct (decide (proto ∈ key Function_toString <$> sources)) as [|Hp]; [by right|].
    by rewrite createRelay_accepts in Hr.
  - intros (Hne & Hall & Hbad). unfold createRelay.
    rewrite bool_decide_eq_false_2 by (by destruct sources).
    rewrite forEach_check_accepts by done. simpl.
    case_bool_decide as Hlen; [done|].
    destruct (set_all_full (source_names Function_toString sources) []) as (Hnd & Hp & _).
    { rewrite Hlen. unfold source_names. by rewrite length_fmap. }
    rewrite source_names_keys in Hnd, Hp. by destruct Hbad.
Qed.

Lemma stream_object_valid (h : nat) (st : stream) :
  is_StateStream (stream_object h st) = truthy (stream_name st).
Proof. unfold is_StateStream. simpl. destruct st; simpl; by rewrite !andb_true_r. Qed.

Lemma created_stream_name name type initialState sources st :
  createStateStream Function_toString name type initialState sources = Returned (Some st) →
  stream_name st = name ∧ nonempty_string name.
Proof.
  unfold createStateStream. destruct (invalid_name name) eqn:Hn; [done|].
  apply invalid_name_false in Hn. destruct (invalid_type type) eqn:Ht; [done|].
  apply invalid_type_false in Ht as [-> | ->]; simpl.
  - by intros [= <-].
  - destruct (createRelay _ _ _) as [st'|e] eqn:Hr; [|done]. simpl. intros [= <-].
    by apply createRelay_returns in Hr as (-> & _).
Qed.

(** X13. Streams compose: a relay over any non-empty list of streams that
    [createStateStream] returned, sources or relays, is built without error
    when the relay's own name is valid and the names of the streams are
    pairwise distinct and none is [__proto__]. *)
Theorem created_streams_compose (name : value) (streams : list (nat * stream)) :
  nonempty_string name →
  streams ≠ [] →
  Forall (λ p, ∃ n type initialState sources,
            createStateStream Function_toString n type initialState sources
            = Returned (Some p.2)) streams →
  NoDup ((λ p, stream_name p.2) <$> streams) →
  VStr proto ∉ (λ p, stream_name p.2) <$> streams →
  createRelayStateStream Function_toString name ((λ p, stream_object p.1 p.2) <$> streams)
  = Returned (Some (RelayStateStream name ((λ p, stream_object p.1 p.2) <$> streams))).
Proof.
  intros Hname Hne Hall Hnd Hp.
  assert (∀ p, p ∈ streams → ∃ n, stream_name p.2 = VStr n ∧ n ≠ EmptyString
                                   ∧ key Function_toString (stream_object p.1 p.2) = n) as Hnames.
  { intros p Hin. rewrite Forall_forall in Hall.
    destruct (Hall p Hin) as (n & type & v & srcs & Hc).
    apply created_stream_name in Hc as [Hn (m & -> & Hm)].
    exists m. split_and!; try done. unfold key. simpl. by rewrite Hn. }
  unfold createRelayStateStream. rewrite createStateStream_relay by done. simpl.
  rewrite createRelay_accepts; [done|..].
  - by destruct streams.
  - apply Forall_fmap, Forall_forall. intros p Hin.
    change (is_StateStream (stream_object p.1 p.2) = true).
    rewrite stream_object_valid. destruct (Hnames p Hin) as (n & -> & Hn & _).
    by destruct n.
  - rewrite <- list_fmap_compose. apply NoDup_fmap_2_strong.
    + intros p q Hp' Hq Heq. simpl in Heq.
      destruct (Hnames p Hp') as (n & Hn & _ & Hkn).
      destruct (Hnames q Hq) as (m & Hm & _ & Hkm).
      assert (stream_name p.2 = stream_name q.2) as Hsame by congruence.
      apply NoDup_fmap_1 in Hnd as Hnd'.
      clear -Hnd Hp' Hq Hsame.
      induction streams as [|r streams IH]; [by apply elem_of_nil in Hp'|].
      csimpl in Hnd. apply NoDup_cons in Hnd as [Hr Hnd].
      apply elem_of_cons in Hp' as [->|Hp']; apply elem_of_cons in Hq as [->|Hq]; try done.
      * destruct Hr. rewrite Hsame. by apply (list_elem_of_fmap_2 (λ p, stream_name p.2)).
      * destruct Hr. rewrite <- Hsame. by apply (list_elem_of_fmap_2 (λ p, stream_name p.2)).
      * by apply IH.
    + by apply NoDup_fmap_1 in Hnd.
  - rewrite <- list_fmap_compose. intros (p & Hk & Hin)%list_elem_of_fmap. simpl in Hk.
    destruct (Hnames p Hin) as (n & Hn & _ & Hkn). apply Hp.
    apply list_elem_of_fmap. exists p. split; [|done]. simpl. congruence.
Qed.

(** X14. [createSourceStateStream] checks the name only: it returns the
    source stream holding [initialState] when [name] is a non-empty string
    and throws the name error otherwise. *)
Theorem createSourceStateStream_outcome (name initialState : value) :
  (nonempty_string name →
   createSourceStateStream Function_toString name initialState
   = Returned (Some (createSource name initialState)))
  ∧ (¬ nonempty_string name →
     createSourceStateStream Function_toString name initialState = Thrown name_error).
Proof.
  unfold createSourceStateStream. split.
  - intros Hn. by apply createStateStream_source.
  - intros Hn. unfold createStateStream. destruct (invalid_name name) eqn:Hi; [done|].
    by apply invalid_name_false in Hi.
Qed.

(** X15. [createRelayStateStream] checks the relay's own name before it
    looks at the sources: a bad name gives the name error whatever the
    sources are, and a good name gives what [createRelay] answers. *)
Theorem createRelayStateStream_outcome (name : value) (sources : list value) :
  (¬ nonempty_string name →
   createRelayStateStream Function_toString name sources = Thrown name_error)
  ∧ (nonempty_string name →
     createRelayStateStream Function_toString name sources
     = Some <$> createRelay Function_toString name sources).
Proof.
  unfold createRelayStateStream. split.
  - intros Hn. unfold createStateStream. destruct (invalid_name name) eqn:Hi; [done|].
    by apply invalid_name_false in Hi.
  - intros Hn. by rewrite createStateStream_relay.
Qed.

Lemma relay_values_eq sources inputs :
  relay_values Function_toString sources inputs = (λ j, latest j inputs) <$> seq 0 (length sources).
Proof.
  apply list_eq. intros j. rewrite list_lookup_fmap.
  destruct (decide (j < length sources)) as [Hj|Hj].
  - rewrite relay_values_lookup by done. by rewrite lookup_seq_lt.
  - rewrite lookup_seq_ge by lia. apply lookup_ge_None.
    rewrite relay_values_length. lia.
Qed.

Lemma relay_next_output sources inputs i v :
  i < length sources →
  (relay_next Function_toString sources i v (relay_values Function_toString sources inputs)).2
  = (λ states, VObj (snapshot Function_toString sources states))
      <$> mapM id (relay_values Function_toString sources (inputs ++ [(i, v)])).
Proof.
  intros Hi. unfold relay_next, combineLatest_next.
  destruct (relay_values Function_toString sources inputs !! i) eqn:Hold; simpl.
  - by rewrite relay_values_snoc.
  - apply lookup_ge_None in Hold. rewrite relay_values_length in Hold. lia.
Qed.

Lemma relay_emits_snoc_from sources inputs i v values :
  relay_emits Function_toString sources (inputs ++ [(i, v)]) values
  = relay_emits Function_toString sources inputs values
    ++ from_option (λ snap, [snap]) []
         (relay_next Function_toString sources i v
            (foldl (λ values '(i, v), (relay_next Function_toString sources i v values).1) values inputs)).2.
Proof.
  revert values. induction inputs as [|[i0 v0] inputs IH]; intros values; simpl.
  - destruct (relay_next Function_toString sources i v values) as [values' [snap|]]; done.
  - destruct (relay_next Function_toString sources i0 v0 values) as [values' [snap|]]; simpl; by rewrite IH.
Qed.

Lemma relay_emits_snoc sources inputs i v :
  relay_emits Function_toString sources (inputs ++ [(i, v)]) (relay_init sources)
  = relay_emits Function_toString sources inputs (relay_init sources)
    ++ from_option (λ snap, [snap]) []
         (relay_next Function_toString sources i v (relay_values Function_toString sources inputs)).2.
Proof. apply relay_emits_snoc_from. Qed.

Lemma latest_imap (states : list value) j :
  latest j (imap (λ i v, (i, v)) states) = states !! j.
Proof.
  induction states as [|x states IH] using rev_ind; [done|].
  rewrite imap_app. csimpl. rewrite latest_snoc, Nat.add_0_r, IH.
  destruct (decide (length states = j)) as [<-|Hne].
  - by rewrite lookup_app_r, Nat.sub_diag.
  - destruct (decide (j < length states)) as [Hlt|Hge].
    + by rewrite lookup_app_l.
    + rewrite !lookup_ge_None_2; [done| |lia]. rewrite length_app. simpl. lia.
Qed.

Lemma lookup_all (states : list value) :
  (λ j, states !! j) <$> seq 0 (length states) = Some <$> states.
Proof.
  apply list_eq. intros j. rewrite !list_lookup_fmap.
  destruct (decide (j < length states)) as [Hj|Hj].
  - rewrite lookup_seq_lt by done. simpl.
    destruct (lookup_lt_is_Some_2 states j Hj) as [x Hx]. by rewrite Hx.
  - rewrite lookup_seq_ge by lia. simpl. by rewrite lookup_ge_None_2 by lia.
Qed.

Lemma relay_replay_prefix sources (states : list value) :
  length states < length sources →
  relay_emits Function_toString sources (imap (λ i v, (i, v)) states) (relay_init sources) = [].
Proof.
  induction states as [|x states IH] using rev_ind; intros Hlen; [done|].
  rewrite length_app in Hlen. simpl in Hlen.
  rewrite imap_app. csimpl. rewrite Nat.add_0_r, relay_emits_snoc, IH by lia.
  rewrite relay_next_output by lia. simpl.
  replace (imap (λ i v, (i, v)) states ++ [(length states, x)])
    with (imap (λ i v, (i, v)) (states ++ [x]))
    by (rewrite imap_app; csimpl; by rewrite Nat.add_0_r).
  rewrite relay_values_eq.
  assert (mapM id ((λ j, latest j (imap (λ i v, (i, v)) (states ++ [x])))
                     <$> seq 0 (length sources)) = None) as ->; [|done].
  apply mapM_None, Exists_exists. exists None. split; [|done].
  apply list_elem_of_fmap. exists (S (length states)). split.
  - rewrite latest_imap. symmetry. apply lookup_ge_None_2. rewrite length_app. simpl. lia.
  - apply list_elem_of_lookup. exists (S (length states)). by rewrite lookup_seq_lt by lia.
Qed.

(** X16. Subscribing to a relay over source streams, whose names are
    primitive values: the sources replay their states in the order they were
    given, and the relay emits once, after the last of them, the snapshot of
    these states. *)
Theorem relay_initial_snapshot (sources : list value) (states : list value) :
  primitive_names sources →
  sources ≠ [] →
  length states = length sources →
  relay_emits Function_toString sources (imap (λ i v, (i, v)) states) (relay_init sources)
  = [VObj (snapshot Function_toString sources states)].
Proof.
  intros _ Hne Hlen. destruct states as [|x states _] using rev_ind.
  { destruct sources; done. }
  rewrite length_app in Hlen. simpl in Hlen.
  rewrite imap_app. csimpl. rewrite Nat.add_0_r, relay_emits_snoc, relay_replay_prefix by lia.
  rewrite relay_next_output by lia. simpl.
  replace (imap (λ i v, (i, v)) states ++ [(length states, x)])
    with (imap (λ i v, (i, v)) (states ++ [x]))
    by (rewrite imap_app; csimpl; by rewrite Nat.add_0_r).
  rewrite relay_values_eq.
  replace (length sources) with (length (states ++ [x])) by (rewrite length_app; simpl; lia).
  erewrite (list_fmap_ext _ (λ j, (states ++ [x]) !! j)); [|intros; apply latest_imap].
  rewrite lookup_all, mapM_fmap_Some by done. done.
Qed.

Lemma snapshot_get sources states j source x :
  NoDup (key Function_toString <$> sources) →
  proto ∉ key Function_toString <$> sources →
  length states = length sources →
  sources !! j = Some source →
  states !! j = Some x →
  obj_get (key Function_toString source) (snapshot Function_toString sources states) = x.
Proof.
  intros Hnd Hp Hlen Hj Hx. rewrite snapshot_set_all.
  assert ((zip (key Function_toString <$> sources) states).*1 = key Function_toString <$> sources) as Hfst.
  { apply fst_zip. rewrite length_fmap. lia. }
  apply (set_all_get _ _ j); rewrite ?Hfst; try done.
  apply lookup_zip_Some. split; [|done]. by rewrite list_lookup_fmap, Hj.
Qed.

(** X17. Once a relay has emitted it emits on every emission of an input,
    and an emission [v'] of input [i'] only moves the entry of source [i']:
    the new snapshot holds [v'] there and agrees with the previous snapshot
    on the key of every other source. *)
Theorem relay_update_local (name : value) (sources : list value) (st : stream)
    (inputs : list (nat * value)) (i i' : nat) (v v' : value) (o : props) :
  createRelay Function_toString name sources = Returned st →
  i < length sources →
  i' < length sources →
  (relay_next Function_toString sources i v (relay_values Function_toString sources inputs)).2 = Some (VObj o) →
  ∃ o',
    (relay_next Function_toString sources i' v' (relay_values Function_toString sources (inputs ++ [(i, v)]))).2 = Some (VObj o')
    ∧ (∀ source, sources !! i' = Some source → obj_get (key Function_toString source) o' = v')
    ∧ (∀ j source, j ≠ i' → sources !! j = Some source →
         obj_get (key Function_toString source) o' = obj_get (key Function_toString source) o).
Proof.
  intros (_ & _ & _ & Hnd & Hp)%createRelay_returns Hi Hi' Hout.
  rewrite relay_next_output in Hout by done.
  destruct (mapM id (relay_values Function_toString sources (inputs ++ [(i, v)]))) as [states|] eqn:Hstates;
    [|done].
  injection Hout as <-. apply mapM_Some in Hstates.
  assert (length states = length sources) as Hlen.
  { rewrite <- (Forall2_length _ _ _ Hstates). apply relay_values_length. }
  rewrite relay_next_output by done. rewrite relay_values_snoc.
  assert (mapM id (<[i' := Some v']> (relay_values Function_toString sources (inputs ++ [(i, v)])))
          = Some (<[i' := v']> states)) as ->.
  { apply mapM_Some. by apply Forall2_insert. }
  eexists. split; [done|]. split.
  - intros source Hs. apply (snapshot_get _ _ i'); try done.
    + by rewrite length_insert.
    + apply list_lookup_insert_eq. lia.
  - intros j source Hne Hs.
    assert (j < length sources) as Hj by (by eapply lookup_lt_Some).
    destruct (lookup_lt_is_Some_2 states j ltac:(lia)) as [x Hx].
    rewrite (snapshot_get _ _ j source x), (snapshot_get _ _ j source x); try done.
    + by rewrite length_insert.
    + by rewrite list_lookup_insert_ne.
Qed.

End Relays.

(** ** Examples for the further properties

    Besides the functions of the first program: handler 8 answers with
    [Rx.Observable.of(1, prev => prev + 1)], the call of handler 7 throws,
    handler 9 answers with the updater 6, which throws. *)
Definition faulty_call (f : nat) (args : list value) : outcome value :=
  match f with
  | 6 => Thrown (Error "updater failed")
  | _ => example_call f args
  end.

Definition faulty_handler (f : nat) (event : value) (params : list value)
  : outcome (list value) :=
  match f with
  | 7 => Thrown (Error "handler failed")
  | 8 => Returned [VNum 1; VFun 1]
  | 9 => Returned [VFun 6]
  | _ => example_handler f event params
  end.

(** Handlers 0 and 2 registered; a call of the first pending, subscriber 9
    waiting for a reply of the second. *)
Definition two_handlers : source :=
  run example_call example_handler
    [CreateEvent (VFun 0); CreateEvent (VFun 2); Dispatch (Dispatcher 0 0) [];
     SubscribeReply 9 (first 1)]
    (machine (VNum 5)).

(** Handler 2 registered on a stream at 0 that subscribers 7 and 6 watch. *)
Definition echo_ready : source :=
  run example_call example_handler
    [CreateEvent (VFun 2); SubscribeState 7; SubscribeState 6] (machine (VNum 0)).

(** Handlers 7, 8 and 9 registered on a stream at 0 that subscriber 7
    watches; calls of 8 and 9 pending, subscriber 3 waiting for a reply
    of 8. *)
Definition faulty_ready : source :=
  run faulty_call faulty_handler
    [CreateEvent (VFun 7); CreateEvent (VFun 8); CreateEvent (VFun 9); SubscribeState 7;
     Dispatch (Dispatcher 8 1) []; Dispatch (Dispatcher 9 2) []; SubscribeReply 3 (first 1)]
    (machine (VNum 0)).

Lemma reply_subjects_distinct_example : 0 ≠ 1 ∧ 0 ≠ subjects two_handlers ∧ 1 ≠ subjects two_handlers.
Proof.
  apply (reply_subjects_distinct example_call example_handler two_handlers 0 2 0 1).
  - by eexists (VNum 5), _.
  - reflexivity.
  - reflexivity.
  - discriminate.
Defined.

Lemma update_keeps_other_replies_example :
  waiting 1 (step example_call example_handler two_handlers (InnerNext 0)) = waiting 1 two_handlers.
Proof.
  apply (update_keeps_other_replies example_call example_handler two_handlers 0 0 2 1 [VFun 1]).
  - by eexists (VNum 5), _.
  - reflexivity.
  - discriminate.
  - reflexivity.
Defined.

Lemma state_subscribers_current_example :
  last (delivered 7 (received (step example_call example_handler counter_pending (InnerNext 0))))
  = Some (stateSubject (step example_call example_handler counter_pending (InnerNext 0))).
Proof.
  apply (state_subscribers_current example_call example_handler).
  - by eexists (VNum 5), [CreateEvent (VFun 0); SubscribeState 7; Dispatch (Dispatcher 0 0) [];
                          SubscribeReply 8 (first 0); InnerNext 0].
  - simpl. apply list_elem_of_singleton. reflexivity.
Defined.


Lemma event_round_trip_example :
  stateSubject
    (run example_call example_handler
       [Dispatch (Dispatcher 2 0) [VNum 4]; SubscribeReply 8 (first 0);
        InnerNext (length (inner echo_ready))] echo_ready)
  = VNum 4
  ∧ received
      (run example_call example_handler
         [Dispatch (Dispatcher 2 0) [VNum 4]; SubscribeReply 8 (first 0);
          InnerNext (length (inner echo_ready)); SubscribeState 9] echo_ready)
    = received echo_ready
      ++ ((λ j, StateNext j (VNum 4)) <$> stateObservers echo_ready)
      ++ ((waiting 0 echo_ready ++ [8])
          ≫= (λ j, [ReplyNext j (VObj [("state", VNum 4)]); ReplyComplete j]))
      ++ [StateNext 9 (VNum 4)].
Proof.
  apply (event_round_trip example_call example_handler echo_ready (Dispatcher 2 0)
           [VNum 4] [] (VNum 4) 8 9).
  - reflexivity.
  - simpl. apply list_elem_of_singleton. reflexivity.
  - reflexivity.
  - reflexivity.
  - discriminate.
  - discriminate.
Defined.

Lemma synchronous_reply_missed_example :
  stateSubject
    (run example_call example_handler
       [Dispatch (Dispatcher 2 0) [VNum 4]; InnerNext (length (inner echo_ready));
        SubscribeReply 8 (first 0)] echo_ready)
  = VNum 4
  ∧ received
      (run example_call example_handler
         [Dispatch (Dispatcher 2 0) [VNum 4]; InnerNext (length (inner echo_ready));
          SubscribeReply 8 (first 0)] echo_ready)
    = received echo_ready
      ++ ((λ j, StateNext j (VNum 4)) <$> stateObservers echo_ready)
      ++ (waiting 0 echo_ready
          ≫= (λ j, [ReplyNext j (VObj [("state", VNum 4)]); ReplyComplete j]))
  ∧ waiting 0
      (run example_call example_handler
         [Dispatch (Dispatcher 2 0) [VNum 4]; InnerNext (length (inner echo_ready));
          SubscribeReply 8 (first 0)] echo_ready)
    = [8].
Proof.
  apply (synchronous_reply_missed example_call example_handler echo_ready (Dispatcher 2 0)
           [VNum 4] [] (VNum 4) 8).
  - reflexivity.
  - simpl. apply list_elem_of_singleton. reflexivity.
  - reflexivity.
  - reflexivity.
  - discriminate.
  - discriminate.
Defined.

Lemma reply_resolves_once_example :
  ∃ subject,
    fn_subject faulty_ready !! 8 = Some subject
    ∧ stateSubject (run faulty_call faulty_handler [InnerNext 0; InnerNext 0] faulty_ready)
      = VNum 2
    ∧ received (run faulty_call faulty_handler [InnerNext 0; InnerNext 0] faulty_ready)
      = received faulty_ready
        ++ ((λ k, StateNext k (VNum 1)) <$> stateObservers faulty_ready)
        ++ (waiting subject faulty_ready
            ≫= (λ k, [ReplyNext k (VObj [("state", VNum 1)]); ReplyComplete k]))
        ++ ((λ k, StateNext k (VNum 2)) <$> stateObservers faulty_ready).
Proof.
  apply (reply_resolves_once faulty_call faulty_handler faulty_ready 0 8
           (VNum 1) (VFun 1) (VNum 1) (VNum 2) []).
  - by eexists (VNum 0), _.
  - reflexivity.
  - discriminate.
  - discriminate.
  - reflexivity.
  - intros g [=].
  - intros H. by destruct H.
  - intros g [= <-]. reflexivity.
Defined.

Lemma handler_fault_stops_loop_example :
  (dispatch faulty_handler (Dispatcher 7 0) [] faulty_ready).1 = Thrown (Error "handler failed")
  ∧ stateSubject
      (run faulty_call faulty_handler
         [Dispatch (Dispatcher 7 0) []; InnerNext 0; Dispatch (Dispatcher 8 1) []; InnerNext 0]
         faulty_ready)
    = stateSubject faulty_ready
  ∧ ∀ k, replies k
           (received
              (run faulty_call faulty_handler
                 [Dispatch (Dispatcher 7 0) []; InnerNext 0; Dispatch (Dispatcher 8 1) [];
                  InnerNext 0] faulty_ready))
         = replies k (received faulty_ready).
Proof.
  apply (handler_fault_stops_loop faulty_call faulty_handler faulty_ready (Dispatcher 7 0) []
           (Error "handler failed")
           [InnerNext 0; Dispatch (Dispatcher 8 1) []; InnerNext 0]).
  - reflexivity.
  - simpl. apply elem_of_cons. by left.
  - reflexivity.
Defined.

Lemma updater_fault_stops_loop_example :
  (inner_next faulty_call 1 faulty_ready).1 = Thrown (Error "updater failed")
  ∧ received (step faulty_call faulty_handler faulty_ready (InnerNext 1)) = received faulty_ready
  ∧ stateSubject (run faulty_call faulty_handler [InnerNext 1; InnerNext 0] faulty_ready)
    = stateSubject faulty_ready
  ∧ ∀ k, replies k
           (received (run faulty_call faulty_handler [InnerNext 1; InnerNext 0] faulty_ready))
         = replies k (received faulty_ready).
Proof.
  apply (updater_fault_stops_loop faulty_call faulty_handler faulty_ready 1 9 6 []
           (Error "updater failed") [InnerNext 0]); reflexivity.
Defined.

Lemma created_streams_compose_example :
  createRelayStateStream example_text (VStr "r")
    ((λ p, stream_object p.1 p.2)
       <$> [(0, createSource (VStr "A") (VNum 1));
            (1, RelayStateStream (VStr "B") [example_source "A" 0])])
  = Returned
      (Some (RelayStateStream (VStr "r")
               ((λ p, stream_object p.1 p.2)
                  <$> [(0, createSource (VStr "A") (VNum 1));
                       (1, RelayStateStream (VStr "B") [example_source "A" 0])]))).
Proof.
  apply (created_streams_compose example_text (VStr "r")
           [(0, createSource (VStr "A") (VNum 1));
            (1, RelayStateStream (VStr "B") [example_source "A" 0])]).
  - by exists "r".
  - discriminate.
  - repeat constructor.
    + by exists (VStr "A"), (VStr SOURCE), (VNum 1), None.
    + by exists (VStr "B"), (VStr RELAY), VNull, (Some [example_source "A" 0]).
  - simpl. apply NoDup_cons. split; [|apply NoDup_singleton].
    intros [=]%list_elem_of_singleton.
  - simpl. intros [[=]|[[=]|[]%elem_of_nil]%elem_of_cons]%elem_of_cons.
Defined.

Lemma relay_initial_snapshot_example :
  relay_emits example_text [example_source "A" 0; example_source "B" 1]
    (imap (λ i v, (i, v)) [VNum 1; VStr "x"])
    (relay_init [example_source "A" 0; example_source "B" 1])
  = [VObj (snapshot example_text [example_source "A" 0; example_source "B" 1]
             [VNum 1; VStr "x"])].
Proof.
  apply (relay_initial_snapshot example_text [example_source "A" 0; example_source "B" 1]
           [VNum 1; VStr "x"]).
  - by repeat constructor.
  - discriminate.
  - reflexivity.
Defined.

Lemma createRelay_throws_exactly_example :
  ∃ e, createRelay example_text (VStr "r") [example_source "__proto__" 0] = Thrown e.
Proof.
  apply (createRelay_throws_exactly example_text (VStr "r") [example_source "__proto__" 0]).
  - by repeat constructor.
  - right. right. right. apply list_elem_of_singleton. reflexivity.
Defined.

Lemma createRelay_unique_error_example :
  createRelay example_text (VStr "r") [example_source "s" 0; example_source "s" 1]
  = Thrown unique_error.
Proof.
  apply (createRelay_unique_error example_text (VStr "r")
           [example_source "s" 0; example_source "s" 1]).
  - by repeat constructor.
  - split_and!.
    + discriminate.
    + by repeat constructor.
    + left. intros [Hs _]%NoDup_cons. apply Hs, list_elem_of_singleton. reflexivity.
Defined.

Lemma relay_update_local_example :
  ∃ o',
    (relay_next example_text [example_source "A" 0; example_source "B" 1] 0 (VNum 2)
       (relay_values example_text [example_source "A" 0; example_source "B" 1]
          ([(0, VNum 1)] ++ [(1, VStr "x")]))).2 = Some (VObj o')
    ∧ (∀ source, [example_source "A" 0; example_source "B" 1] !! 0 = Some source →
         obj_get (key example_text source) o' = VNum 2)
    ∧ (∀ j source, j ≠ 0 → [example_source "A" 0; example_source "B" 1] !! j = Some source →
         obj_get (key example_text source) o'
         = obj_get (key example_text source) [("A", VNum 1); ("B", VStr "x")]).
Proof.
  apply (relay_update_local example_text (VStr "r")
           [example_source "A" 0; example_source "B" 1]
           (RelayStateStream (VStr "r") [example_source "A" 0; example_source "B" 1])
           [(0, VNum 1)] 1 0 (VStr "x") (VNum 2) [("A", VNum 1); ("B", VStr "x")]).
  - reflexivity.
  - simpl. lia.
  - simpl. lia.
  - reflexivity.
Defined.

Lemma createRelayStateStream_outcome_example :
  createRelayStateStream example_text (VStr EmptyString) [example_source "A" 0]
  = Thrown name_error.
Proof.
  refine (proj1 (createRelayStateStream_outcome example_text (VStr EmptyString)
                   [example_source "A" 0]) _).
  intros (s & [= <-] & Hs). by destruct Hs.
Defined.

Lemma createSourceStateStream_outcome_example :
  createSourceStateStream example_text (VStr "counter") (VNum 0)
  = Returned (Some (createSource (VStr "counter") (VNum 0))).
Proof.
  refine (proj1 (createSourceStateStream_outcome example_text (VStr "counter") (VNum 0)) _).
  by exists "counter".
Defined.
